(** * PyPhi models: cuts, MIPs, MICE, concepts and their comparisons

    A shallow embedding of [pyphi/models.py]: the [Cut] container with its
    mechanism-splitting test and cut matrix, the rich-comparison mixins
    ([_Ordering] and its three key variants), the equality helpers
    ([_numpy_aware_eq], [_general_eq]) and the [Mip], [Mice], [Concept] and
    [BigMip] containers.

    Conventions of the embedding
    - Python floats ([phi], repertoire entries) are exact rationals [Q];
      rounding is not modelled, only the comparison logic.
    - Tuples of node indices are [list nat]; Python sets of node indices are
      [gset nat].
    - A Python call that can raise returns [result A]; the exception names are
      the Python ones.
    - An attribute that may be absent on a duck-typed operand is a slot
      [attr A]; reading a [Missing] slot raises [AttributeError]. *)

From Stdlib Require Import QArith Qabs Lqa.
From stdpp Require Import base list gmap strings sorting pretty.

Close Scope Q_scope.
Open Scope nat_scope.

(** ** Exceptions and fallible computations *)

Inductive exn :=
| AttributeError
| TypeError
| UnboundLocalError
| IndexError
| ValueError.

Inductive result (A : Type) :=
| Ok (a : A)
| Raise (e : exn).
Arguments Ok {A} a.
Arguments Raise {A} e.

#[global] Instance result_ret : MRet result := λ A a, Ok a.
#[global] Instance result_bind : MBind result := λ A B k r,
  match r with
  | Ok a => k a
  | Raise e => Raise e
  end.

(** [for x in xs: ys.append(f x)], stopping at the first exception. *)
Fixpoint mapM {A B} (f : A → result B) (xs : list A) : result (list B) :=
  match xs with
  | [] => Ok []
  | x :: xs' => y ← f x; ys ← mapM f xs'; Ok (y :: ys)
  end.

(** ** Python sets of node indices *)

(** Truth value of a set: non-empty. *)
Definition set_truthy (s : gset nat) : bool := bool_decide (s ≠ ∅).

(** [a and b] on sets: the left operand when it is falsy, else the right. *)
Definition set_and (a b : gset nat) : gset nat :=
  if set_truthy a then b else a.

(** [set(t)] for a tuple of node indices. *)
Definition set_of (t : list nat) : gset nat := list_to_set t.

(** The order in which [tuple(s)] lists the elements of a set.  The program
    does not choose it: it is whatever order the interpreter iterates the set
    in, so it is a parameter of the development, constrained only to list
    every element once. *)
Class SetOrder := {
  set_to_tuple : gset nat → list nat;
  set_to_tuple_perm : ∀ s, set_to_tuple s ≡ₚ elements s
}.

(** Ascending iteration. *)
Definition ascending (s : gset nat) : list nat := merge_sort Nat.le (elements s).

(** Iteration by hash slot of an eight-slot table, where an integer hashes
    to itself.  This is CPython's order for a set of at most four
    non-negative integers whose residues modulo 8 are pairwise distinct (no
    collision and no resize of the table), for instance
    [tuple({1, 8}) == (8, 1)]; for other sets it is only one more order in
    which a set can be listed. *)
Definition slot_le (x y : nat) : Prop :=
  x mod 8 < y mod 8 ∨ (x mod 8 = y mod 8 ∧ x ≤ y).

#[global] Instance slot_le_dec : RelDecision slot_le.
Proof. intros x y. unfold slot_le. apply _. Defined.

Definition by_slot (s : gset nat) : list nat := merge_sort slot_le (elements s).

(** ** Connectivity primitives ([utils]) *)

(** A two-dimensional 0/1 array, as the list of its rows.  The empty array
    [np.array([])] is the empty list. *)
Abbreviation matrix := (list (list Z)).

(** Modelled from the spec: [utils.relevant_connections] is not in the source
    tree.  "relevant_connections(n, from_indices, to_indices) -> n×n 0/1
    matrix", with entry [i,j] equal to 1 exactly when [i] is a from-index and
    [j] a to-index (the docstring of [Mice._relevant_connections]). *)
Definition relevant_connections (n : nat) (_from to : list nat) : matrix :=
  (λ i, (λ j, if bool_decide (i ∈ _from) && bool_decide (j ∈ to)
              then 1%Z else 0%Z) <$> seq 0 n) <$> seq 0 n.

(** [row[j]], raising [IndexError] out of range. *)
Definition index {A} (xs : list A) (j : nat) : result A :=
  match xs !! j with
  | Some x => Ok x
  | None => Raise IndexError
  end.

(** Modelled from the spec: [utils.submatrix] is not in the source tree.
    "submatrix(matrix, row_indices, col_indices) -> restricted matrix": the
    rows and columns selected, in the order the indices are given. *)
Definition submatrix (m : matrix) (rows cols : list nat) : result matrix :=
  mapM (λ i, row ← index m i; mapM (index row) cols) rows.

(** ** Cut *)

Record Cut := mkCut { severed : list nat; intact : list nat }.

Module Cut.

(** [Cut.splits_mechanism]: the value is a set (the source does not cast it
    to a bool); callers use its truth value. *)
Definition splits_mechanism (self : Cut) (mechanism : list nat) : gset nat :=
  set_and (set_of mechanism ∩ set_of (severed self))
          (set_of mechanism ∩ set_of (intact self)).

(** [Cut.cut_matrix]. *)
Definition cut_matrix `{SetOrder} (self : Cut) : result matrix :=
  let cut_indices := set_to_tuple (set_of (severed self ++ intact self)) in
  if bool_decide (cut_indices = []) then Ok []
  else
    let n := max_list cut_indices + 1 in
    let matrix := relevant_connections n (severed self) (intact self) in
    submatrix matrix cut_indices cut_indices.

End Cut.

(** ** Numeric equality policy *)

(** The process-wide comparison precision ([config.PRECISION], as a
    tolerance). *)
Class Config := { EPSILON : Q }.

(** Modelled from the spec: [utils.phi_eq] is not in the source tree.
    "phi_eq(a, b) -> bool, true iff |a - b| is within a fixed configured
    precision". *)
Definition phi_eq `{Config} (x y : Q) : bool := Qle_bool (Qabs (x - y)) EPSILON.

(** Python [<] on floats. *)
Definition Qlt_bool (x y : Q) : bool := negb (Qle_bool y x).

(** Python [<] on lists of numbers: decided at the first position where the
    two lists differ; a proper prefix is smaller. *)
Fixpoint list_lt (xs ys : list Q) : bool :=
  match xs, ys with
  | [], [] => false
  | [], _ :: _ => true
  | _ :: _, [] => false
  | x :: xs', y :: ys' => if Qeq_bool x y then list_lt xs' ys' else Qlt_bool x y
  end.

(** ** Arrays *)

(** A numeric array: its shape and its entries in row-major order. *)
Record ndarray := mkArray { shape : list nat; data : list Q }.

Fixpoint data_eq (xs ys : list Q) : bool :=
  match xs, ys with
  | [], [] => true
  | x :: xs', y :: ys' => Qeq_bool x y && data_eq xs' ys'
  | _, _ => false
  end.

(** [np.array_equal] on a repertoire slot, which holds an array or [None]:
    equal shapes and equal entries; [None] equals only [None]. *)
Definition array_equal (a b : option ndarray) : bool :=
  match a, b with
  | Some x, Some y => bool_decide (shape x = shape y) && data_eq (data x) (data y)
  | None, None => true
  | _, _ => false
  end.

(** [len(x)] where [x] is a tuple or [None]. *)
Definition len (x : option (list nat)) : result nat :=
  match x with
  | Some t => Ok (length t)
  | None => Raise TypeError
  end.

(** [set(x)] where [x] is a tuple or [None]. *)
Definition py_set (x : option (list nat)) : result (gset nat) :=
  match x with
  | Some t => Ok (set_of t)
  | None => Raise TypeError
  end.

(** Truth value of a tuple or [None]. *)
Definition truthy (x : option (list nat)) : bool :=
  match x with
  | Some (_ :: _) => true
  | _ => false
  end.

(** ** Attribute access *)

Inductive attr (A : Type) :=
| Missing
| Has (a : A).
Arguments Missing {A}.
Arguments Has {A} a.

Definition getattr {A} (slot : attr A) : result A :=
  match slot with
  | Has a => Ok a
  | Missing => Raise AttributeError
  end.

(** ** Equality helpers *)

(** [_numpy_aware_eq], by the type of its arguments (the [isinstance]
    dispatch of the source). *)
Class NumpyAwareEq (A : Type) := _numpy_aware_eq : A → A → result bool.

(** Strings are excluded from the iterable branch: [a == b]. *)
#[global] Instance str_numpy_aware_eq : NumpyAwareEq string :=
  λ a b, Ok (bool_decide (a = b)).

(** An array on either side: [np.array_equal]; [None] against [None]:
    [a == b]. *)
#[global] Instance array_numpy_aware_eq : NumpyAwareEq (option ndarray) :=
  λ a b, Ok (array_equal a b).

(** [all(_numpy_aware_eq(x, y) for x, y in zip(a, b))]: stops at the first
    pair that differs. *)
Fixpoint all_zip {A} (f : A → A → result bool) (a b : list A) : result bool :=
  match a, b return result bool with
  | x :: a', y :: b' => r ← f x y; if r : bool then all_zip f a' b' else Ok false
  | _, _ => Ok true
  end.

(** Two iterables: equal lengths, then element by element. *)
#[global] Instance iterable_numpy_aware_eq {A} `{NumpyAwareEq A} :
  NumpyAwareEq (list A) :=
  λ a b, if negb (length a =? length b) then Ok false
         else all_zip _numpy_aware_eq a b.

(** One attribute of the loop of [_general_eq], after the dispatch on its
    name: the two slots read by [getattr(a, attr)] and [getattr(b, attr)]. *)
Inductive field :=
| Phi (a b : attr Q)
| Nodes (a b : attr (option (list nat)))
| Other {A : Type} `{NumpyAwareEq A} (a b : attr A).

Definition is_None {A} (x : option A) : bool :=
  match x with None => true | Some _ => false end.

Fixpoint general_eq_loop `{Config} (fields : list field) : result bool :=
  match fields with
  | [] => Ok true
  | Phi a b :: rest =>
      _a ← getattr a; _b ← getattr b;
      if negb (phi_eq _a _b) then Ok false else general_eq_loop rest
  | Nodes a b :: rest =>
      _a ← getattr a; _b ← getattr b;
      if is_None _a || (is_None _b && negb (bool_decide (_a = _b)))
      then Ok false
      else
        sa ← py_set _a; sb ← py_set _b;
        if negb (bool_decide (sa = sb)) then Ok false else general_eq_loop rest
  | @Other A eqA a b :: rest =>
      _a ← getattr a; _b ← getattr b;
      r ← @_numpy_aware_eq A eqA _a _b;
      if negb r then Ok false else general_eq_loop rest
  end.

(** [_general_eq]: the loop inside [try], with [except AttributeError:
    return False]. *)
Definition _general_eq `{Config} (fields : list field) : result bool :=
  match general_eq_loop fields with
  | Raise AttributeError => Ok false
  | r => r
  end.

(** ** Part and Mip *)

Record Part := mkPart { part_mechanism : list nat; part_purview : list nat }.

(** [DIRECTIONS[PAST]] and [DIRECTIONS[FUTURE]] of [pyphi.constants]. *)
Definition PAST_DIRECTION : string := "past".
Definition FUTURE_DIRECTION : string := "future".

Module Mip.

(** The named tuple [Mip]; [mechanism] and [purview] hold a tuple of node
    indices or [None], the repertoires an array or [None]. *)
Record t := mk {
  phi : Q;
  direction : string;
  mechanism : option (list nat);
  purview : option (list nat);
  partition : option (Part * Part);
  unpartitioned_repertoire : option ndarray;
  partitioned_repertoire : option ndarray
}.

(** What [Mip.__eq__] reads from its right operand, which is any object. *)
Record obj := mkObj {
  o_phi : attr Q;
  o_direction : attr string;
  o_mechanism : attr (option (list nat));
  o_purview : attr (option (list nat));
  o_unpartitioned_repertoire : attr (option ndarray)
}.

Definition as_obj (m : t) : obj :=
  {| o_phi := Has (phi m);
     o_direction := Has (direction m);
     o_mechanism := Has (mechanism m);
     o_purview := Has (purview m);
     o_unpartitioned_repertoire := Has (unpartitioned_repertoire m) |}.

(** [getattr(a, attr), getattr(b, attr)] with the dispatch of [_general_eq]
    on the attribute's name. *)
Definition fields (a b : obj) (name : string) : field :=
  if String.eqb name "phi" then Phi (o_phi a) (o_phi b)
  else if String.eqb name "mechanism" then Nodes (o_mechanism a) (o_mechanism b)
  else if String.eqb name "purview" then Nodes (o_purview a) (o_purview b)
  else if String.eqb name "direction" then Other (o_direction a) (o_direction b)
  else if String.eqb name "unpartitioned_repertoire"
       then Other (o_unpartitioned_repertoire a) (o_unpartitioned_repertoire b)
  else Other (A := string) Missing Missing.

Definition attrs : list string :=
  ["phi"; "direction"; "mechanism"; "unpartitioned_repertoire"].

(** [Mip.__eq__]. *)
Definition __eq__ `{Config} (self : t) (other : obj) : result bool :=
  both ← (if truthy (purview self)
          then p ← getattr (o_purview other); Ok (truthy p)
          else Ok false);
  if both : bool then
    r ← _general_eq (fields (as_obj self) other <$> attrs);
    if r : bool then
      n ← len (purview self);
      p ← getattr (o_purview other);
      m ← len p;
      Ok (n =? m)
    else Ok false
  else _general_eq (fields (as_obj self) other <$> attrs).

(** [_null_mip]. *)
Definition _null_mip (direction : string) (mechanism purview : option (list nat)) : t :=
  {| phi := 0; direction := direction; mechanism := mechanism;
     purview := purview; partition := None;
     unpartitioned_repertoire := None; partitioned_repertoire := None |}.

(** [Mip.__bool__]: a Mip is truthy if it is not reducible. *)
Definition __bool__ `{Config} (self : t) : bool := negb (phi_eq (phi self) 0).

End Mip.

(** ** Subsystem (collaborator) *)

Record Network := mkNetwork { net_id : nat; size : nat }.

Record Subsystem := mkSubsystem {
  network : Network;
  state : list nat;
  node_indices : list nat;
  cut : Cut;
  cut_matrix : matrix
}.

(** [Subsystem.__eq__] belongs to the subsystem collaborator. *)
Class SubsystemEq := subsystem_eq : Subsystem → Subsystem → bool.

#[global] Instance subsystem_numpy_aware_eq `{SubsystemEq} : NumpyAwareEq Subsystem :=
  λ a b, Ok (subsystem_eq a b).

#[global] Instance Network_eq_dec : EqDecision Network.
Proof. solve_decision. Defined.

(** Modelled from the spec: [utils.state_of] is not in the source tree.
    "state_of(mechanism) -> tuple": the states of the mechanism's nodes. *)
Definition state_of (nodes : list nat) (network_state : list nat) : result (list nat) :=
  mapM (index network_state) nodes.

(** ** Element-wise array arithmetic *)

(** One axis of NumPy broadcasting: equal lengths pair up; a length-one
    operand is repeated; anything else is a [ValueError]. *)
Definition broadcast {A B} (f : A → A → result B) (xs ys : list A) : result (list B) :=
  if length xs =? length ys then mapM (λ p, f p.1 p.2) (zip xs ys)
  else match xs, ys with
       | [x], _ => mapM (f x) ys
       | _, [y] => mapM (λ x, f x y) xs
       | _, _ => Raise ValueError
       end.

(** [a * b] on two-dimensional arrays. *)
Definition multiply (a b : matrix) : result matrix :=
  broadcast (broadcast (λ x y, Ok (x * y)%Z)) a b.

(** [np.any(m == 1)]. *)
Definition any_eq_1 (m : matrix) : bool :=
  existsb (existsb (Z.eqb 1)) m.

(** ** Mice *)

Module Mice.

Record t := mk { _mip : Mip.t }.

Definition phi (self : t) : Q := Mip.phi (_mip self).
Definition direction (self : t) : string := Mip.direction (_mip self).
Definition mechanism (self : t) : option (list nat) := Mip.mechanism (_mip self).
Definition purview (self : t) : option (list nat) := Mip.purview (_mip self).
Definition repertoire (self : t) : option ndarray :=
  Mip.unpartitioned_repertoire (_mip self).
Definition mip (self : t) : Mip.t := _mip self.

(** What [Mice.__eq__] reads from its right operand. *)
Record obj := mkObj { o_mip : attr Mip.obj }.

Definition as_obj (m : t) : obj := {| o_mip := Has (Mip.as_obj (mip m)) |}.

(** [Mice.__eq__]: [self.mip == other.mip]. *)
Definition __eq__ `{Config} (self : t) (other : obj) : result bool :=
  m ← getattr (o_mip other);
  Mip.__eq__ (mip self) m.

(** The mechanism handed to [Cut.splits_mechanism], which takes [set] of it:
    a tuple; [None] is not iterable. *)
Definition nodes (x : option (list nat)) : result (list nat) :=
  match x with
  | Some t => Ok t
  | None => Raise TypeError
  end.

(** The nodes an argument of [utils.relevant_connections] selects: those of
    the tuple; [None], falsy like the empty tuple, selects none, and the
    matrix is then zero. *)
Definition selected (x : option (list nat)) : list nat := default [] x.

(** [Mice._relevant_connections]. *)
Definition _relevant_connections (self : t) (subsystem : Subsystem) : result matrix :=
  ends ← (if String.eqb (direction self) PAST_DIRECTION
          then Ok (purview self, mechanism self)
          else if String.eqb (direction self) FUTURE_DIRECTION
          then Ok (mechanism self, purview self)
          else Raise UnboundLocalError);
  let _from := selected ends.1 in
  let to := selected ends.2 in
  let cm := relevant_connections (size (network subsystem)) _from to in
  let idxs := node_indices subsystem in
  submatrix cm idxs idxs.

(** [Mice.damaged_by_cut], as the truth value of the [or]. *)
Definition damaged_by_cut (self : t) (subsystem : Subsystem) : result bool :=
  m ← nodes (mechanism self);
  if set_truthy (Cut.splits_mechanism (cut subsystem) m) then Ok true
  else
    rc ← _relevant_connections self subsystem;
    prod ← multiply rc (cut_matrix subsystem);
    Ok (any_eq_1 prod).

End Mice.

(** ** Concept *)

Module Concept.

Record t := mk {
  phi : Q;
  mechanism : list nat;
  cause : option Mice.t;
  effect : option Mice.t;
  subsystem : Subsystem;
  normalized : bool
}.

(** What [Concept.__eq__] reads from its right operand. *)
Record obj := mkObj {
  o_phi : attr Q;
  o_mechanism : attr (list nat);
  o_cause : attr (option Mice.t);
  o_effect : attr (option Mice.t);
  o_subsystem : attr Subsystem
}.

Definition as_obj (c : t) : obj :=
  {| o_phi := Has (phi c);
     o_mechanism := Has (mechanism c);
     o_cause := Has (cause c);
     o_effect := Has (effect c);
     o_subsystem := Has (subsystem c) |}.

(** [getattr(mice, 'purview', None)] where [mice] is a [Mice] or [None]. *)
Definition purview_or_None (mice : option Mice.t) : option (list nat) :=
  match mice with
  | Some m => Mice.purview m
  | None => None
  end.

(** [getattr(mice, 'repertoire', None)]. *)
Definition repertoire_or_None (mice : option Mice.t) : option ndarray :=
  match mice with
  | Some m => Mice.repertoire m
  | None => None
  end.

(** [Concept.eq_repertoires]. *)
Definition eq_repertoires (self : t) (other : obj) : result bool :=
  let this_cr := repertoire_or_None (cause self) in
  let this_er := repertoire_or_None (effect self) in
  oc ← getattr (o_cause other);
  let other_cr := repertoire_or_None oc in
  oe ← getattr (o_effect other);
  let other_er := repertoire_or_None oe in
  Ok (array_equal this_cr other_cr && array_equal this_er other_er).

(** [Concept.__eq__]: a chain of [and], left to right, each conjunct
    evaluated only when the ones before it hold. *)
Definition __eq__ (self : t) (other : obj) : result bool :=
  let self_cause_purview := purview_or_None (cause self) in
  oc ← getattr (o_cause other);
  let other_cause_purview := purview_or_None oc in
  let self_effect_purview := purview_or_None (effect self) in
  oe ← getattr (o_effect other);
  let other_effect_purview := purview_or_None oe in
  ophi ← getattr (o_phi other);
  if negb (Qeq_bool (phi self) ophi) then Ok false else
  omech ← getattr (o_mechanism other);
  if negb (bool_decide (mechanism self = omech)) then Ok false else
  s1 ← state_of (mechanism self) (state (subsystem self));
  osub ← getattr (o_subsystem other);
  s2 ← state_of (mechanism self) (state osub);
  if negb (bool_decide (s1 = s2)) then Ok false else
  if negb (bool_decide (self_cause_purview = other_cause_purview)) then Ok false else
  if negb (bool_decide (self_effect_purview = other_effect_purview)) then Ok false else
  r ← eq_repertoires self other;
  if negb r then Ok false else
  osub' ← getattr (o_subsystem other);
  Ok (bool_decide (network (subsystem self) = network osub')).

(** [Concept.__bool__]. *)
Definition __bool__ `{Config} (self : t) : bool := negb (phi_eq (phi self) 0).

(** [Concept.emd_eq]. *)
Definition emd_eq (self : t) (other : obj) : result bool :=
  omech ← getattr (o_mechanism other);
  if negb (bool_decide (mechanism self = omech)) then Ok false else
  eq_repertoires self other.

End Concept.

(** A concept is not iterable: [_numpy_aware_eq] falls through to [a == b]. *)
#[global] Instance concept_numpy_aware_eq : NumpyAwareEq Concept.t :=
  λ a b, Concept.__eq__ a (Concept.as_obj b).

(** ** BigMip *)

Module BigMip.

Record t := mk {
  phi : Q;
  unpartitioned_constellation : list Concept.t;
  partitioned_constellation : list Concept.t;
  subsystem : Subsystem;
  cut_subsystem : Subsystem
}.

(** What [BigMip.__eq__] reads from its right operand. *)
Record obj := mkObj {
  o_phi : attr Q;
  o_unpartitioned_constellation : attr (list Concept.t);
  o_partitioned_constellation : attr (list Concept.t);
  o_subsystem : attr Subsystem;
  o_cut_subsystem : attr Subsystem
}.

Definition as_obj (b : t) : obj :=
  {| o_phi := Has (phi b);
     o_unpartitioned_constellation := Has (unpartitioned_constellation b);
     o_partitioned_constellation := Has (partitioned_constellation b);
     o_subsystem := Has (subsystem b);
     o_cut_subsystem := Has (cut_subsystem b) |}.

Definition fields `{SubsystemEq} (a b : obj) (name : string) : field :=
  if String.eqb name "phi" then Phi (o_phi a) (o_phi b)
  else if String.eqb name "unpartitioned_constellation"
       then Other (o_unpartitioned_constellation a) (o_unpartitioned_constellation b)
  else if String.eqb name "partitioned_constellation"
       then Other (o_partitioned_constellation a) (o_partitioned_constellation b)
  else if String.eqb name "subsystem" then Other (o_subsystem a) (o_subsystem b)
  else if String.eqb name "cut_subsystem"
       then Other (o_cut_subsystem a) (o_cut_subsystem b)
  else Other (A := string) Missing Missing.

Definition _bigmip_attributes : list string :=
  ["phi"; "unpartitioned_constellation"; "partitioned_constellation";
   "subsystem"; "cut_subsystem"].

(** [BigMip.__eq__]. *)
Definition __eq__ `{Config} `{SubsystemEq} (self : t) (other : obj) : result bool :=
  _general_eq (fields (as_obj self) other <$> _bigmip_attributes).

(** [BigMip.cut]. *)
Definition cut (self : t) : Cut := cut (cut_subsystem self).

(** [BigMip.__bool__]. *)
Definition __bool__ `{Config} (self : t) : bool := negb (phi_eq (phi self) 0).

(** [_null_bigmip]. *)
Definition _null_bigmip (subsystem : Subsystem) : t :=
  {| phi := 0; unpartitioned_constellation := []; partitioned_constellation := [];
     subsystem := subsystem; cut_subsystem := subsystem |}.

(** [_single_node_bigmip]; the flag is
    [config.SINGLE_NODES_WITH_SELFLOOPS_HAVE_PHI]. *)
Definition _single_node_bigmip (SINGLE_NODES_WITH_SELFLOOPS_HAVE_PHI : bool)
    (subsystem : Subsystem) : t :=
  if SINGLE_NODES_WITH_SELFLOOPS_HAVE_PHI
  then {| phi := 1 # 2; unpartitioned_constellation := [];
          partitioned_constellation := [];
          subsystem := subsystem; cut_subsystem := subsystem |}
  else _null_bigmip subsystem.

End BigMip.

(** ** Rich comparison *)

(** An instance of one of the four ordered containers. *)
Inductive model :=
| AMip (m : Mip.t)
| AMice (m : Mice.t)
| AConcept (c : Concept.t)
| ABigMip (b : BigMip.t).

Inductive class := ClsMip | ClsMice | ClsConcept | ClsBigMip.

#[global] Instance class_eq_dec : EqDecision class.
Proof. solve_decision. Defined.

(** [type(x)]. *)
Definition type (x : model) : class :=
  match x with
  | AMip _ => ClsMip
  | AMice _ => ClsMice
  | AConcept _ => ClsConcept
  | ABigMip _ => ClsBigMip
  end.

(** The value of a rich-comparison method. *)
Inductive cmp :=
| NotImplemented
| Bool (b : bool).

Definition inject_nat (n : nat) : Q := inject_Z (Z.of_nat n).

(** [_PhiMechanismOrdering._order_by]. *)
Definition _PhiMechanismOrdering (phi : Q) (mechanism : option (list nat)) : result (list Q) :=
  m ← len mechanism;
  Ok [phi; inject_nat m].

(** [_PhiMechanismPurviewOrdering._order_by]. *)
Definition _PhiMechanismPurviewOrdering (phi : Q) (mechanism purview : option (list nat)) : result (list Q) :=
  m ← len mechanism;
  p ← len purview;
  Ok [phi; inject_nat m; inject_nat p].

(** [_PhiSubsystemOrdering._order_by]; the length of a subsystem is its
    number of nodes. *)
Definition _PhiSubsystemOrdering (phi : Q) (subsystem : Subsystem) : result (list Q) :=
  Ok [phi; inject_nat (length (node_indices subsystem))].

Module _Ordering.

(** [self.phi]. *)
Definition phi (self : model) : Q :=
  match self with
  | AMip m => Mip.phi m
  | AMice m => Mice.phi m
  | AConcept c => Concept.phi c
  | ABigMip b => BigMip.phi b
  end.

(** [self._order_by()], resolved through the base class each container
    names in its [class] statement. *)
Definition _order_by (self : model) : result (list Q) :=
  match self with
  | AMip m =>
      _PhiMechanismPurviewOrdering (Mip.phi m) (Mip.mechanism m) (Mip.purview m)
  | AMice m =>
      _PhiMechanismPurviewOrdering (Mice.phi m) (Mice.mechanism m) (Mice.purview m)
  | AConcept c =>
      _PhiMechanismOrdering (Concept.phi c) (Some (Concept.mechanism c))
  | ABigMip b =>
      _PhiSubsystemOrdering (BigMip.phi b) (BigMip.subsystem b)
  end.

(** The decorator [sametype]. *)
Definition sametype (func : model → model → result bool) (self other : model) : result cmp :=
  if bool_decide (type other ≠ type self) then Ok NotImplemented
  else b ← func self other; Ok (Bool b).

Definition __lt__ : model → model → result cmp :=
  sametype (λ self other,
    k1 ← _order_by self;
    k2 ← _order_by other;
    Ok (list_lt k1 k2)).

(** The operator [a < b]: [a.__lt__(b)], and a [TypeError] when that is
    [NotImplemented] (the reflected [b.__gt__(a)] is wrapped by [sametype]
    as well and gives [NotImplemented] for the same operands). *)
Definition lt (a b : model) : result bool :=
  r ← __lt__ a b;
  match r with
  | Bool v => Ok v
  | NotImplemented => Raise TypeError
  end.

Definition __le__ `{Config} : model → model → result cmp :=
  sametype (λ self other,
    l ← lt self other;
    if l : bool then Ok true else Ok (phi_eq (phi self) (phi other))).

Definition __gt__ : model → model → result cmp :=
  sametype (λ self other, lt other self).

Definition __ge__ `{Config} : model → model → result cmp :=
  sametype (λ self other,
    l ← lt other self;
    if l : bool then Ok true else Ok (phi_eq (phi self) (phi other))).

End _Ordering.

(** [_Ordering.__ne__]: [not self == other] under [sametype], where [==]
    is the [__eq__] each container defines for itself. *)
Definition __ne__ `{Config} `{SubsystemEq} (self other : model) : result cmp :=
  match self, other with
  | AMip x, AMip y => r ← Mip.__eq__ x (Mip.as_obj y); Ok (Bool (negb r))
  | AMice x, AMice y => r ← Mice.__eq__ x (Mice.as_obj y); Ok (Bool (negb r))
  | AConcept x, AConcept y => r ← Concept.__eq__ x (Concept.as_obj y); Ok (Bool (negb r))
  | ABigMip x, ABigMip y => r ← BigMip.__eq__ x (BigMip.as_obj y); Ok (Bool (negb r))
  | _, _ => Ok NotImplemented
  end.

(** ** KCut (from the specification) *)

Module KCut.

(** Modelled from the spec: the classes [KCut] and [KPartition] are not in
    the source tree, only a test of them is.  "KCut (generalized k-way cut):
    an ordered sequence of >= 2 Parts". *)
Definition t := list Part.

(** Modelled from the spec: [KCut.indices] is not in the source tree.
    "indices: sorted union of node indices across all parts'
    mechanisms/purviews". *)
Definition indices (self : t) : list nat :=
  ascending (set_of (mjoin ((λ p, part_mechanism p ++ part_purview p) <$> self))).

(** Modelled from the spec: [KCut.splits_mechanism] is not in the source
    tree.  "true iff the mechanism's indices span the mechanisms of two or
    more distinct parts". *)
Definition splits_mechanism (self : t) (mechanism : list nat) : bool :=
  2 <=? length (filter (λ p, set_of mechanism ∩ set_of (part_mechanism p) ≠ ∅) self).

(** The subsets of a given size, in index order. *)
Fixpoint combinations (k : nat) (l : list nat) : list (list nat) :=
  match k, l with
  | 0, _ => [[]]
  | S _, [] => []
  | S k', x :: l' => (cons x <$> combinations k' l') ++ combinations k l'
  end.

(** Modelled from the spec: [utils.powerset] is not in the source tree.
    "canonical enumeration order: by increasing size, then by index order
    within each size"; the empty subset left out, as [all_cut_mechanisms]
    ranges over "every non-empty subset". *)
Definition powerset (l : list nat) : list (list nat) :=
  mjoin ((λ k, combinations k l) <$> seq 1 (length l)).

(** Modelled from the spec: [KCut.all_cut_mechanisms] is not in the source
    tree.  "every non-empty subset of indices split by this cut, same
    enumeration order". *)
Definition all_cut_mechanisms (self : t) : list (list nat) :=
  filter (λ m, splits_mechanism self m = true) (powerset (indices self)).

End KCut.

(** ** Cut mechanisms *)

(** Modelled from the spec: [utils.powerset] is not in the source tree.
    "powerset(indices) -> ordered sequence of subsets (canonical enumeration
    order: by increasing size, then by index order within each size)", the
    empty subset first. *)
Definition powerset (l : list nat) : list (list nat) :=
  mjoin ((λ k, KCut.combinations k l) <$> seq 0 (S (length l))).

(** [Cut.all_cut_mechanisms]: [filter] keeps the subsets whose
    [splits_mechanism] value is truthy. *)
Definition all_cut_mechanisms (self : Cut) (candidate_indices : list nat) : list (list nat) :=
  filter (λ m, set_truthy (Cut.splits_mechanism self m) = true)
         (powerset candidate_indices).

(** ** Formatting *)

(** The line feed character. *)
Definition LF : Ascii.ascii := Ascii.ascii_of_nat 10.

(** [s.split(LF)]: the pieces between line feeds, at least one. *)
Fixpoint split_lines (s : string) : list string :=
  match s with
  | EmptyString => [EmptyString]
  | String c s' =>
      if Ascii.eqb c LF then EmptyString :: split_lines s'
      else match split_lines s' with
           | l :: ls => String c l :: ls
           | [] => [String c EmptyString]
           end
  end.

(** [sep.join(pieces)]. *)
Fixpoint join (sep : string) (pieces : list string) : string :=
  match pieces with
  | [] => EmptyString
  | [p] => p
  | p :: ps => p +:+ sep +:+ join sep ps
  end.

(** [amount * chr]. *)
Fixpoint repeat_str (amount : nat) (chr : string) : string :=
  match amount with
  | 0 => EmptyString
  | S n => chr +:+ repeat_str n chr
  end.

(** [indent], on a string. *)
Definition indent (lines : string) (amount : nat) (chr : string) : string :=
  let padding := repeat_str amount chr in
  padding +:+ join (String LF padding) (split_lines lines).

(** [str(n)] for a node index: its decimal digits. *)
Definition str (n : nat) : string := pretty n.

(** The [node_repr] of [fmt_partition]: the indices separated by commas, or
    [[]] for the empty tuple. *)
Definition node_repr (x : list nat) : string :=
  match x with
  | [] => "[]"
  | _ :: _ => join "," (str <$> x)
  end.

(** [format(s, '^width')]: [s] centred in a field of the given width, the
    odd space on the right; [s] itself when it is longer than the field. *)
Definition center (s : string) (width : nat) : string :=
  let padding := width - String.length s in
  let left := padding / 2 in
  repeat_str left " " +:+ s +:+ repeat_str (padding - left) " ".

(** [fmt_partition], on the partition of a Mip: a pair of parts or
    [None]. *)
Definition fmt_partition (partition : option (Part * Part)) : string :=
  match partition with
  | None => ""
  | Some (part0, part1) =>
      let numer0 := node_repr (part_mechanism part0) in
      let denom0 := node_repr (part_purview part0) in
      let numer1 := node_repr (part_mechanism part1) in
      let denom1 := node_repr (part_purview part1) in
      let width0 := String.length numer0 `max` String.length denom0 in
      let width1 := String.length numer1 `max` String.length denom1 in
      (center numer0 width0 +:+ "   " +:+ center numer1 width1)
      +:+ String LF
        ((repeat_str width0 "-" +:+ " X " +:+ repeat_str width1 "-")
         +:+ String LF
           (center denom0 width0 +:+ "   " +:+ center denom1 width1))
  end.

(** ** Specification-level definitions and sample values *)

(** The matrix the spec describes: entry [1] where the row's node is a
    from-index and the column's node a to-index, [0] elsewhere, over the
    given row and column nodes. *)
Definition indicator (_from to rows cols : list nat) : matrix :=
  (λ i, (λ j, if bool_decide (i ∈ _from) && bool_decide (j ∈ to)
              then 1%Z else 0%Z) <$> cols) <$> rows.

(** The two iteration orders as instances. *)
Definition ascending_order : SetOrder :=
  {| set_to_tuple := ascending; set_to_tuple_perm := λ s, merge_sort_Permutation Nat.le (elements s) |}.

Definition slot_order : SetOrder :=
  {| set_to_tuple := by_slot; set_to_tuple_perm := λ s, merge_sort_Permutation slot_le (elements s) |}.

(** The cut matrix as the spec words it: the indicator of severed-to-intact
    connections over the cut's indices in ascending order. *)
Definition cut_matrix_sorted (c : Cut) : matrix :=
  let idx := ascending (set_of (severed c ++ intact c)) in
  indicator (severed c) (intact c) idx idx.

(** The relevant connections of a MICE over a subsystem's nodes, as the spec
    words them: from the purview to the mechanism for a cause, from the
    mechanism to the purview for an effect. *)
Definition relevant_over (direction : string) (mechanism purview idxs : list nat) : matrix :=
  if String.eqb direction PAST_DIRECTION
  then indicator purview mechanism idxs idxs
  else indicator mechanism purview idxs idxs.

(** The mechanism test of [_general_eq] on two values that are tuples or
    [None]: both are tuples, with the same set of elements. *)
Definition nodes_eq (x y : option (list nat)) : bool :=
  match x, y with
  | Some s, Some t => bool_decide (set_of s = set_of t)
  | _, _ => false
  end.

(** The same, as a proposition. *)
Definition same_nodes (x y : option (list nat)) : Prop :=
  ∃ s t, x = Some s ∧ y = Some t ∧ set_of s = set_of t.

(** The four attributes [Mip.__eq__] hands to [_general_eq]. *)
Definition mip_core_eq `{Config} (a b : Mip.t) : bool :=
  phi_eq (Mip.phi a) (Mip.phi b)
  && bool_decide (Mip.direction a = Mip.direction b)
  && nodes_eq (Mip.mechanism a) (Mip.mechanism b)
  && array_equal (Mip.unpartitioned_repertoire a) (Mip.unpartitioned_repertoire b).

(** The purview test of [Mip.__eq__]: lengths are compared only when both
    purviews are non-empty tuples. *)
Definition purview_len_eq (p q : option (list nat)) : bool :=
  match p, q with
  | Some (x :: p'), Some (y :: q') => length p' =? length q'
  | _, _ => true
  end.

(** The default precision of the configuration, six decimal places. *)
Definition default_config : Config := {| EPSILON := 1 # 1000000 |}.

(** The key a Mip would have under [_PhiMechanismOrdering]. *)
Definition phi_mechanism_key (m : Mip.t) : result (list Q) :=
  _PhiMechanismOrdering (Mip.phi m) (Mip.mechanism m).

(** A Mip over mechanism (0,) and purview (0,) with the given phi and
    direction. *)
Definition unit_mip (phi : Q) (direction : string) : Mip.t :=
  Mip.mk phi direction (Some [0]) (Some [0]) None None None.

#[global] Instance Cut_eq_dec : EqDecision Cut.
Proof. solve_decision. Defined.

#[global] Instance Subsystem_eq_dec : EqDecision Subsystem.
Proof. solve_decision. Defined.

(** A subsystem equality for the examples: equal in every field. *)
Definition structural_subsystem_eq : SubsystemEq := λ a b, bool_decide (a = b).

(** The subsystem of node 0 of a one-node network. *)
Definition unit_subsystem : Subsystem :=
  mkSubsystem (mkNetwork 0 1) [0] [0] (mkCut [] [0]) [[0%Z]].

(** A concept over node 0 of that subsystem, without core cause or
    effect. *)
Definition unit_concept (phi : Q) : Concept.t :=
  Concept.mk phi [0] None None unit_subsystem false.

(** The right operand has no value for this attribute. *)
Definition lacks (f : field) : Prop :=
  match f with
  | Phi _ b => b = Missing
  | Nodes _ b => b = Missing
  | @Other _ _ _ b => b = Missing
  end.

(** The two values of an attribute are both present and compare equal under
    the rule [_general_eq] applies to that attribute. *)
Definition agrees `{Config} (f : field) : Prop :=
  match f with
  | Phi (Has a) (Has b) => phi_eq a b = true
  | Nodes (Has a) (Has b) => nodes_eq a b = true
  | @Other _ eqA (Has a) (Has b) => eqA a b = Ok true
  | _ => False
  end.

(** The nodes a MICE's relevant connections go from and to: from the
    purview to the mechanism for a cause, from the mechanism to the purview
    for an effect. *)
Definition relevant_ends (direction : string) (mechanism purview : list nat) : list nat * list nat :=
  if String.eqb direction PAST_DIRECTION
  then (purview, mechanism) else (mechanism, purview).

(** A field of the given width that holds [s] between blanks, as many on
    the left as on the right or one more on the right. *)
Definition centred_in (s : string) (width : nat) (field : string) : Prop :=
  ∃ l r, field = repeat_str l " " +:+ s +:+ repeat_str r " "
         ∧ l + String.length s + r = width
         ∧ l ≤ r ≤ l + 1.

(** The lexicographic order on tuples of node indices. *)
Fixpoint lex_lt (a b : list nat) : Prop :=
  match a, b with
  | [], _ :: _ => True
  | x :: a', y :: b' => x < y ∨ (x = y ∧ lex_lt a' b')
  | _, _ => False
  end.

(** The canonical order of subsets: by increasing size, then
    lexicographically. *)
Definition shortlex (a b : list nat) : Prop :=
  length a < length b ∨ (length a = length b ∧ lex_lt a b).

(** A string without line feed. *)
Definition one_line (s : string) : Prop := LF ∉ String.list_ascii_of_string s.

(** * Properties *)

(** ** Fallible loops and array indexing *)

Lemma mapM_Ok {A B} (f : A → result B) (g : A → B) (xs : list A) :
  Forall (λ x, f x = Ok (g x)) xs → mapM f xs = Ok (g <$> xs).
Proof.
  induction 1 as [|x xs Hx _ IH]; simpl; [done|].
  by rewrite Hx, IH.
Qed.

Lemma index_fmap_seq {A} (f : nat → A) (n i : nat) :
  i < n → index (f <$> seq 0 n) i = Ok (f i).
Proof.
  intros Hi. unfold index.
  by rewrite list_lookup_fmap, lookup_seq_lt.
Qed.

Lemma submatrix_relevant_connections (n : nat) (_from to rows cols : list nat) :
  Forall (λ i, i < n) rows →
  Forall (λ j, j < n) cols →
  submatrix (relevant_connections n _from to) rows cols
  = Ok (indicator _from to rows cols).
Proof.
  intros Hrows Hcols. unfold submatrix, indicator, relevant_connections.
  apply mapM_Ok. eapply Forall_impl; [exact Hrows|].
  intros i Hi. simpl. rewrite index_fmap_seq by done. simpl.
  apply mapM_Ok. eapply Forall_impl; [exact Hcols|].
  intros j Hj. simpl. by rewrite index_fmap_seq.
Qed.

(** ** Set iteration orders *)

Lemma elem_of_set_to_tuple `{SetOrder} (s : gset nat) (i : nat) :
  i ∈ set_to_tuple s ↔ i ∈ s.
Proof. by rewrite set_to_tuple_perm, elem_of_elements. Qed.

Lemma NoDup_set_to_tuple `{SetOrder} (s : gset nat) : NoDup (set_to_tuple s).
Proof. rewrite set_to_tuple_perm. apply NoDup_elements. Qed.

Lemma ascending_perm (s : gset nat) : ascending s ≡ₚ elements s.
Proof. apply merge_sort_Permutation. Qed.

(** A sorted duplicate-free listing of a set is the ascending one. *)
Lemma sorted_is_ascending (s : gset nat) (l : list nat) :
  l ≡ₚ elements s → Sorted Nat.le l → l = ascending s.
Proof.
  intros Hperm Hsorted.
  apply (Sorted_unique_strong Nat.le).
  - intros x y _ _ Hxy Hyx. lia.
  - done.
  - unfold ascending. apply (Sorted_merge_sort Nat.le).
  - by rewrite Hperm, ascending_perm.
Qed.

(** ** Cut *)

(** C5.  A cut splits a mechanism exactly when the mechanism has a node on
    the severed side and a node on the intact side. *)
Theorem splits_mechanism_iff (c : Cut) (m : list nat) :
  set_truthy (Cut.splits_mechanism c m) = true ↔
  set_of m ∩ set_of (severed c) ≠ ∅ ∧ set_of m ∩ set_of (intact c) ≠ ∅.
Proof.
  unfold Cut.splits_mechanism, set_and, set_truthy.
  destruct (decide (set_of m ∩ set_of (severed c) ≠ ∅)) as [Hsev|Hsev].
  - rewrite (bool_decide_eq_true_2 _ Hsev), bool_decide_eq_true. tauto.
  - rewrite (bool_decide_eq_false_2 _ Hsev), bool_decide_eq_true. tauto.
Qed.

Lemma cut_indices_bound (l : list nat) : Forall (λ i, i < max_list l + 1) l.
Proof.
  apply Forall_forall. intros i Hi.
  pose proof (max_list_elem_of_le i l Hi). lia.
Qed.

Lemma cut_matrix_indicator `{SetOrder} (c : Cut) :
  let idx := set_to_tuple (set_of (severed c ++ intact c)) in
  Cut.cut_matrix c = Ok (indicator (severed c) (intact c) idx idx).
Proof.
  intros idx. unfold Cut.cut_matrix. fold idx.
  case_bool_decide as Hempty.
  - by rewrite Hempty.
  - apply submatrix_relevant_connections; apply cut_indices_bound.
Qed.

(** What [Cut.cut_matrix] computes, for any iteration order: it never
    fails; it returns the square 0/1 matrix over exactly the indices that
    appear in the cut, each once, in the order in which the set of those
    indices is iterated, with entry 1 where the row's node is severed and the
    column's node intact; that is the matrix over the ascending indices
    whenever the iteration happens to be sorted; a cut with both sides empty
    gives the empty matrix; and [Cut((1,), (2,)).cut_matrix()] is
    [[0,1],[0,0]] when the set {1, 2} is iterated as (1, 2). *)
Lemma cut_matrix_iteration_order `{SetOrder} :
  (∀ c : Cut,
     let idx := set_to_tuple (set_of (severed c ++ intact c)) in
     Cut.cut_matrix c = Ok (indicator (severed c) (intact c) idx idx)
     ∧ NoDup idx
     ∧ (∀ i, i ∈ idx ↔ i ∈ severed c ∨ i ∈ intact c)
     ∧ (Sorted Nat.le idx → Cut.cut_matrix c = Ok (cut_matrix_sorted c))
     ∧ (severed c = [] ∧ intact c = [] → Cut.cut_matrix c = Ok []))
  ∧ (set_to_tuple (set_of [1; 2]) = [1; 2] →
     Cut.cut_matrix (mkCut [1] [2]) = Ok [[0; 1]; [0; 0]]%Z).
Proof.
  split.
  - intros c idx. split_and!.
    + apply cut_matrix_indicator.
    + apply NoDup_set_to_tuple.
    + intros i. unfold idx. rewrite elem_of_set_to_tuple. unfold set_of.
      by rewrite elem_of_list_to_set, elem_of_app.
    + intros Hsorted. rewrite cut_matrix_indicator. unfold cut_matrix_sorted.
      fold idx. by rewrite <- (sorted_is_ascending _ idx (set_to_tuple_perm _) Hsorted).
    + intros [Hs Hi]. rewrite cut_matrix_indicator. rewrite Hs, Hi. simpl.
      assert (set_to_tuple (set_of []) = []) as ->; [|done].
      apply Permutation_nil_r. by rewrite set_to_tuple_perm.
  - intros Horder. rewrite cut_matrix_indicator. simpl. by rewrite Horder.
Qed.

(** With ascending iteration the docstring example holds outright. *)
Lemma cut_matrix_docstring_example :
  @set_to_tuple ascending_order (set_of [1; 2]) = [1; 2]
  ∧ @Cut.cut_matrix ascending_order (mkCut [1] [2]) = Ok [[0; 1]; [0; 0]]%Z.
Proof.
  split; [by vm_compute|].
  apply (proj2 (@cut_matrix_iteration_order ascending_order)). by vm_compute.
Defined.

(** C6.  The cut matrix is meant to list the cut's indices in ascending
    order, and the code takes them in the iteration order of a set instead:
    the set {1, 8} is iterated as (8, 1) in hash-slot order, so
    [Cut((1,), (8,)).cut_matrix()] is [[0,0],[1,0]], where the matrix over
    the ascending indices is [[0,1],[0,0]]. *)
Theorem cut_matrix_not_sorted :
  @Cut.cut_matrix slot_order (mkCut [1] [8]) = Ok [[0; 0]; [1; 0]]%Z
  ∧ cut_matrix_sorted (mkCut [1] [8]) = [[0; 1]; [0; 0]]%Z.
Proof. split; by vm_compute. Qed.

(** ** Mice: damage by a cut *)

Lemma any_eq_1_iff (m : matrix) :
  any_eq_1 m = true ↔ ∃ row, row ∈ m ∧ 1%Z ∈ row.
Proof.
  unfold any_eq_1. rewrite existsb_exists. split.
  - intros (row & Hrow & Hex). apply existsb_exists in Hex as (x & Hx & Heq).
    apply Z.eqb_eq in Heq. subst x.
    exists row. by rewrite !list_elem_of_In.
  - intros (row & Hrow & Hone). exists row. rewrite <- list_elem_of_In.
    split; [done|]. apply existsb_exists. exists 1%Z.
    by rewrite <- list_elem_of_In.
Qed.

Lemma broadcast_same {A B} (f : A → A → result B) (g : A → A → B) (xs ys : list A) :
  length xs = length ys →
  Forall2 (λ x y, f x y = Ok (g x y)) xs ys →
  broadcast f xs ys = Ok (zip_with g xs ys).
Proof.
  intros Hlen Hall. unfold broadcast.
  rewrite (proj2 (Nat.eqb_eq _ _) Hlen). clear Hlen.
  induction Hall as [|x y xs ys Hxy _ IH]; simpl; [done|].
  by rewrite Hxy, IH.
Qed.

Lemma multiply_same_shape (a b : matrix) :
  Forall2 (λ r1 r2 : list Z, length r1 = length r2) a b →
  multiply a b = Ok (zip_with (zip_with Z.mul) a b).
Proof.
  intros Hshape. unfold multiply. apply broadcast_same.
  - by apply Forall2_length in Hshape.
  - eapply Forall2_impl; [exact Hshape|]. intros r1 r2 Hlen. simpl in *.
    apply broadcast_same; [done|].
    clear Hshape. revert r2 Hlen.
    induction r1 as [|x r1 IH]; intros [|y r2] Hlen; try done; constructor;
      [done | apply IH; by injection Hlen].
Qed.

Lemma any_eq_1_product (a b : matrix) :
  any_eq_1 (zip_with (zip_with Z.mul) a b) = true ↔
  ∃ i j x y, a !! i ≫= (.!! j) = Some x ∧ b !! i ≫= (.!! j) = Some y
             ∧ (x * y = 1)%Z.
Proof.
  rewrite any_eq_1_iff. split.
  - intros (row & Hrow & Hone).
    apply list_elem_of_lookup in Hrow as [i Hi].
    apply list_elem_of_lookup in Hone as [j Hj].
    apply lookup_zip_with_Some in Hi as (r1 & r2 & -> & Ha & Hb).
    apply lookup_zip_with_Some in Hj as (x & y & Hxy & Hx & Hy).
    exists i, j, x, y. by rewrite Ha, Hb.
  - intros (i & j & x & y & Ha & Hb & Hxy).
    destruct (a !! i) as [r1|] eqn:Hr1; [|done].
    destruct (b !! i) as [r2|] eqn:Hr2; [|done]. simpl in *.
    exists (zip_with Z.mul r1 r2). split.
    + apply list_elem_of_lookup. exists i. apply lookup_zip_with_Some. eauto.
    + apply list_elem_of_lookup. exists j. apply lookup_zip_with_Some.
      exists x, y. eauto.
Qed.

Lemma indicator_lookup (_from to rows cols : list nat) (a b : nat) (x : Z) :
  indicator _from to rows cols !! a ≫= (.!! b) = Some x ↔
  ∃ i j, rows !! a = Some i ∧ cols !! b = Some j
         ∧ x = if bool_decide (i ∈ _from) && bool_decide (j ∈ to) then 1%Z else 0%Z.
Proof.
  unfold indicator. rewrite list_lookup_fmap.
  destruct (rows !! a) as [i|]; simpl.
  - rewrite list_lookup_fmap. destruct (cols !! b) as [j|]; simpl.
    + split; [intros [= <-]; eauto | by intros (? & ? & [= <-] & [= <-] & ->)].
    + split; [done | by intros (? & ? & _ & ? & _)].
  - split; [done | by intros (? & ? & ? & _)].
Qed.

Lemma indicator_shape (_from to idxs : list nat) (cm : matrix) :
  length cm = length idxs →
  Forall (λ row, length row = length idxs) cm →
  Forall2 (λ r1 r2 : list Z, length r1 = length r2)
          (indicator _from to idxs idxs) cm.
Proof.
  intros Hlen Hrows. unfold indicator.
  apply Forall2_fmap_l.
  apply Forall2_same_length_lookup. split; [done|].
  intros a i row Hi Hrow. simpl. rewrite length_fmap.
  rewrite Forall_forall in Hrows. symmetry. apply Hrows.
  apply list_elem_of_lookup. eauto.
Qed.

Lemma _relevant_connections_over (m : Mice.t) (s : Subsystem) (mech purv : list nat) :
  Mice.mechanism m = Some mech →
  Mice.purview m = Some purv →
  Mice.direction m = PAST_DIRECTION ∨ Mice.direction m = FUTURE_DIRECTION →
  Forall (λ i, i < size (network s)) (node_indices s) →
  Mice._relevant_connections m s
  = Ok (relevant_over (Mice.direction m) mech purv (node_indices s)).
Proof.
  intros Hmech Hpurv Hdir Hidx.
  unfold Mice._relevant_connections, relevant_over.
  destruct Hdir as [-> | ->]; simpl; rewrite Hmech, Hpurv; simpl;
    by apply submatrix_relevant_connections.
Qed.

Lemma _relevant_connections_value (m : Mice.t) (s : Subsystem) (mech : list nat) :
  Mice.mechanism m = Some mech →
  Mice.direction m = PAST_DIRECTION ∨ Mice.direction m = FUTURE_DIRECTION →
  Forall (λ i, i < size (network s)) (node_indices s) →
  Mice._relevant_connections m s
  = Ok (relevant_over (Mice.direction m) mech (Mice.selected (Mice.purview m))
                      (node_indices s)).
Proof.
  intros Hmech Hdir Hidx.
  unfold Mice._relevant_connections, relevant_over.
  destruct Hdir as [-> | ->]; simpl; rewrite Hmech; simpl;
    by apply submatrix_relevant_connections.
Qed.

Lemma relevant_over_shape (direction : string) (mech purv idxs : list nat) (cm : matrix) :
  length cm = length idxs →
  Forall (λ row, length row = length idxs) cm →
  Forall2 (λ r1 r2 : list Z, length r1 = length r2)
          (relevant_over direction mech purv idxs) cm.
Proof.
  intros Hlen Hrows. unfold relevant_over.
  destruct (String.eqb _ _); by apply indicator_shape.
Qed.

Lemma damaged_by_cut_product (m : Mice.t) (s : Subsystem) (mech : list nat) :
  Mice.mechanism m = Some mech →
  Mice.direction m = PAST_DIRECTION ∨ Mice.direction m = FUTURE_DIRECTION →
  Forall (λ i, i < size (network s)) (node_indices s) →
  length (cut_matrix s) = length (node_indices s) →
  Forall (λ row, length row = length (node_indices s)) (cut_matrix s) →
  let rc := relevant_over (Mice.direction m) mech (Mice.selected (Mice.purview m))
                          (node_indices s) in
  ∃ d, Mice.damaged_by_cut m s = Ok d
       ∧ (d = true ↔
          set_truthy (Cut.splits_mechanism (cut s) mech) = true
          ∨ ∃ a b x y,
              rc !! a ≫= (.!! b) = Some x
              ∧ cut_matrix s !! a ≫= (.!! b) = Some y
              ∧ (x * y = 1)%Z).
Proof.
  intros Hmech Hdir Hidx Hlen Hrows rc.
  unfold Mice.damaged_by_cut. rewrite Hmech. simpl.
  destruct (set_truthy (Cut.splits_mechanism (cut s) mech)) eqn:Hsplit.
  { exists true. split; [done|]. split; [by left | done]. }
  rewrite (_relevant_connections_value m s mech) by done. simpl. fold rc.
  rewrite multiply_same_shape by by apply relevant_over_shape.
  simpl. eexists. split; [done|].
  rewrite any_eq_1_product. split; [by right|].
  by intros [? | ?].
Qed.

(** C1.  For a MICE with a cause or effect direction and a mechanism tuple,
    over a subsystem whose node indices lie in the network and whose cut
    matrix has one row and one column per node: [_relevant_connections] is
    the direction-dependent matrix (rows in the purview and columns in the
    mechanism for a cause, rows in the mechanism and columns in the purview
    for an effect; a purview that is [None] selects no node) built at network
    size and restricted to the subsystem's nodes; and [damaged_by_cut]
    returns a truth value, which is true exactly when the subsystem's cut
    splits the mechanism or, at some position, the entry of that matrix
    times the entry of the subsystem's cut matrix equals 1. *)
Theorem damaged_by_cut_iff (m : Mice.t) (s : Subsystem) (mech : list nat) :
  Mice.mechanism m = Some mech →
  Mice.direction m = PAST_DIRECTION ∨ Mice.direction m = FUTURE_DIRECTION →
  Forall (λ i, i < size (network s)) (node_indices s) →
  length (cut_matrix s) = length (node_indices s) →
  Forall (λ row, length row = length (node_indices s)) (cut_matrix s) →
  let purv := default [] (Mice.purview m) in
  let rc := relevant_over (Mice.direction m) mech purv (node_indices s) in
  submatrix
    (if String.eqb (Mice.direction m) PAST_DIRECTION
     then relevant_connections (size (network s)) purv mech
     else relevant_connections (size (network s)) mech purv)
    (node_indices s) (node_indices s) = Ok rc
  ∧ Mice._relevant_connections m s = Ok rc
  ∧ ∃ d, Mice.damaged_by_cut m s = Ok d
         ∧ (d = true ↔
            set_truthy (Cut.splits_mechanism (cut s) mech) = true
            ∨ ∃ a b x y,
                rc !! a ≫= (.!! b) = Some x
                ∧ cut_matrix s !! a ≫= (.!! b) = Some y
                ∧ (x * y = 1)%Z).
Proof.
  intros Hmech Hdir Hidx Hlen Hrows purv rc. split_and!.
  - unfold rc, relevant_over.
    destruct (String.eqb _ _); by apply submatrix_relevant_connections.
  - by apply _relevant_connections_value.
  - by apply damaged_by_cut_product.
Qed.

(** A core cause with mechanism (0,) and purview (1,) in the subsystem of
    nodes 0 and 1 of a three-node network, under the cut that severs 1 from
    0: the connection from the purview to the mechanism is cut. *)
Lemma damaged_by_cut_iff_witness :
  let m := Mice.mk (Mip.mk (1 # 2) "past" (Some [0]) (Some [1]) None None None) in
  let m0 := Mice.mk (Mip._null_mip "past" (Some [0]) None) in
  let s := mkSubsystem (mkNetwork 0 3) [0; 0; 0] [0; 1] (mkCut [1] [0])
                       [[0; 0]; [1; 0]]%Z in
  Mice._relevant_connections m s = Ok [[0; 0]; [1; 0]]%Z
  ∧ Mice.damaged_by_cut m s = Ok true
  ∧ Mice.damaged_by_cut m0 s = Ok false.
Proof.
  intros m m0 s.
  assert (Hidx : Forall (λ i, i < size (network s)) (node_indices s)).
  { repeat constructor. }
  assert (Hrows : Forall (λ row, length row = length (node_indices s))
                         (cut_matrix s)).
  { repeat constructor. }
  destruct (damaged_by_cut_iff m s [0] eq_refl (or_introl eq_refl) Hidx
              eq_refl Hrows) as (_ & Hrc & d & Hd & Hiff).
  destruct (damaged_by_cut_iff m0 s [0] eq_refl (or_introl eq_refl) Hidx
              eq_refl Hrows) as (_ & _ & d0 & Hd0 & Hiff0).
  split_and!; [exact Hrc | |].
  - rewrite Hd. f_equal. apply Hiff. right.
    exists 1, 0, 1%Z, 1%Z. by split_and!.
  - rewrite Hd0. f_equal. destruct d0; [|done]. exfalso.
    destruct (proj1 Hiff0 eq_refl) as [Hs | (a & b & x & y & Hx & _ & Hxy)].
    + by vm_compute in Hs.
    + destruct a as [|[|a]], b as [|[|b]]; vm_compute in Hx; try done;
        injection Hx as <-; lia.
Defined.

(** ** Mip equality *)

Lemma phi_eq_iff `{Config} (x y : Q) :
  phi_eq x y = true ↔ (Qabs (x - y) <= EPSILON)%Q.
Proof. unfold phi_eq. apply Qle_bool_iff. Qed.

Lemma nodes_eq_iff (x y : option (list nat)) :
  nodes_eq x y = true ↔ same_nodes x y.
Proof.
  unfold nodes_eq, same_nodes. destruct x as [s|], y as [t|].
  - rewrite bool_decide_eq_true. split; [by eauto|].
    by intros (s' & t' & [= <-] & [= <-] & ?).
  - split; [done|]. by intros (? & ? & ? & ? & _).
  - split; [done|]. by intros (? & ? & ? & _).
  - split; [done|]. by intros (? & ? & ? & _).
Qed.

Lemma Mip_general_eq `{Config} (a b : Mip.t) :
  _general_eq (Mip.fields (Mip.as_obj a) (Mip.as_obj b) <$> Mip.attrs)
  = Ok (mip_core_eq a b).
Proof.
  unfold _general_eq, mip_core_eq. simpl.
  destruct (phi_eq (Mip.phi a) (Mip.phi b)); simpl; [|done].
  destruct (bool_decide (Mip.direction a = Mip.direction b)); simpl; [|done].
  destruct (Mip.mechanism a) as [s|], (Mip.mechanism b) as [t|]; simpl; try done.
  - destruct (bool_decide (set_of s = set_of t)); simpl; [|done].
    by destruct (array_equal _ _).
Qed.

Lemma Mip_eq_value `{Config} (a b : Mip.t) :
  Mip.__eq__ a (Mip.as_obj b)
  = Ok (mip_core_eq a b && purview_len_eq (Mip.purview a) (Mip.purview b)).
Proof.
  unfold Mip.__eq__. rewrite Mip_general_eq. simpl.
  destruct (Mip.purview a) as [[|x p]|], (Mip.purview b) as [[|y q]|]; simpl;
    rewrite ?andb_true_r; try done.
  by destruct (mip_core_eq a b).
Qed.

Lemma purview_len_eq_length (p q p' q' : option (list nat)) :
  length <$> p' = length <$> p →
  length <$> q' = length <$> q →
  purview_len_eq p' q' = purview_len_eq p q.
Proof.
  intros Hp Hq.
  destruct p as [[|x p]|], p' as [[|x' p']|]; simplify_eq/=; try done;
    destruct q as [[|y q]|], q' as [[|y' q']|]; simplify_eq/=; try done.
  congruence.
Qed.

(** C2.  Comparing two Mips never raises, and [a == b] holds exactly when
    the phi values agree within the precision, the directions are equal, the
    mechanisms are tuples with the same set of nodes, the unpartitioned
    repertoires are equal as arrays, and, when both purviews are non-empty
    tuples, they have the same length.  The partition, the partitioned
    repertoire and the elements of the purviews play no part: two other Mips
    that agree with [a] and [b] on the attributes above and on the purview
    lengths compare the same way. *)
Theorem Mip_eq_iff `{Config} (a b : Mip.t) :
  (∃ r, Mip.__eq__ a (Mip.as_obj b) = Ok r)
  ∧ (Mip.__eq__ a (Mip.as_obj b) = Ok true ↔
       (Qabs (Mip.phi a - Mip.phi b) <= EPSILON)%Q
       ∧ Mip.direction a = Mip.direction b
       ∧ same_nodes (Mip.mechanism a) (Mip.mechanism b)
       ∧ array_equal (Mip.unpartitioned_repertoire a)
                     (Mip.unpartitioned_repertoire b) = true
       ∧ (∀ p q, Mip.purview a = Some p → Mip.purview b = Some q →
                 p ≠ [] → q ≠ [] → length p = length q))
  ∧ (∀ a' b' : Mip.t,
       Mip.phi a' = Mip.phi a → Mip.phi b' = Mip.phi b →
       Mip.direction a' = Mip.direction a → Mip.direction b' = Mip.direction b →
       Mip.mechanism a' = Mip.mechanism a → Mip.mechanism b' = Mip.mechanism b →
       Mip.unpartitioned_repertoire a' = Mip.unpartitioned_repertoire a →
       Mip.unpartitioned_repertoire b' = Mip.unpartitioned_repertoire b →
       length <$> Mip.purview a' = length <$> Mip.purview a →
       length <$> Mip.purview b' = length <$> Mip.purview b →
       Mip.__eq__ a' (Mip.as_obj b') = Mip.__eq__ a (Mip.as_obj b)).
Proof.
  split_and!.
  - rewrite Mip_eq_value. eauto.
  - rewrite Mip_eq_value. unfold mip_core_eq.
    rewrite <- phi_eq_iff, <- nodes_eq_iff.
    split.
    + intros [= Heq]. rewrite !andb_true_iff, bool_decide_eq_true in Heq.
      destruct Heq as ((((? & ?) & ?) & ?) & Hlen). split_and!; try done.
      intros p q Hp Hq Hpne Hqne. rewrite Hp, Hq in Hlen.
      destruct p, q; try done. simpl in *. f_equal. by apply Nat.eqb_eq.
    + intros (Hphi & Hdir & Hmech & Harr & Hlen). f_equal.
      rewrite !andb_true_iff, bool_decide_eq_true. split_and!; try done.
      destruct (Mip.purview a) as [[|x p]|], (Mip.purview b) as [[|y q]|];
        simpl; try done.
      apply Nat.eqb_eq.
      specialize (Hlen (x :: p) (y :: q) eq_refl eq_refl). simpl in Hlen.
      assert (S (length p) = S (length q)) by by apply Hlen. lia.
  - intros a' b' Hpa Hpb Hda Hdb Hma Hmb Hua Hub Hla Hlb.
    rewrite !Mip_eq_value. unfold mip_core_eq.
    rewrite Hpa, Hpb, Hda, Hdb, Hma, Hmb, Hua, Hub.
    by rewrite (purview_len_eq_length _ _ _ _ Hla Hlb).
Qed.

(** C10.  A Mip whose mechanism is [None] is equal to no Mip, itself
    included: the mechanism step of [_general_eq] answers [False] as soon as
    the left-hand value is [None], whatever the right-hand value. *)
Theorem Mip_eq_None_mechanism `{Config} (m : Mip.t) :
  Mip.mechanism m = None →
  Mip.__eq__ m (Mip.as_obj m) = Ok false
  ∧ (∀ b : Mip.t, Mip.__eq__ m (Mip.as_obj b) = Ok false)
  ∧ (∀ y rest, _general_eq (Nodes (Has None) (Has y) :: rest) = Ok false).
Proof.
  intros Hmech.
  assert (∀ b : Mip.t, Mip.__eq__ m (Mip.as_obj b) = Ok false) as Hall.
  { intros b. rewrite Mip_eq_value. unfold mip_core_eq. rewrite Hmech. simpl.
    by rewrite andb_false_r. }
  split_and!; [apply Hall | apply Hall | done].
Qed.

Lemma Mip_eq_iff_witness :
  let a := Mip.mk (1 # 2) "past" (Some [0; 1]) (Some [2]) None None None in
  let b := Mip.mk (1 # 2) "past" (Some [1; 0]) (Some [0]) None None None in
  @Mip.__eq__ default_config a (Mip.as_obj b) = Ok true.
Proof.
  intros a b.
  apply (proj1 (proj2 (@Mip_eq_iff default_config a b))).
  split_and!; try by vm_compute.
  - apply nodes_eq_iff. by vm_compute.
  - intros p q [= <-] [= <-] _ _. reflexivity.
Defined.

Lemma Mip_eq_None_mechanism_witness :
  let m := Mip._null_mip "past" None (Some [0]) in
  Mip.mechanism m = None ∧ @Mip.__eq__ default_config m (Mip.as_obj m) = Ok false.
Proof.
  intros m. split; [reflexivity|].
  exact (proj1 (@Mip_eq_None_mechanism default_config m eq_refl)).
Defined.

(** ** Ordering keys *)

Lemma Qlt_bool_iff (x y : Q) : Qlt_bool x y = true ↔ (x < y)%Q.
Proof.
  unfold Qlt_bool. rewrite negb_true_iff. split.
  - intros Hf. apply Qnot_le_lt. intros Hle.
    apply Qle_bool_iff in Hle. congruence.
  - intros Hlt. destruct (Qle_bool y x) eqn:Hle; [|done].
    apply Qle_bool_iff in Hle. exfalso. by apply (Qlt_not_le x y).
Qed.

(** Python's list comparison is the lexicographic one. *)
Lemma list_lt_cons (x y : Q) (xs ys : list Q) :
  list_lt (x :: xs) (y :: ys) = true ↔
  (x < y)%Q ∨ ((x == y)%Q ∧ list_lt xs ys = true).
Proof.
  simpl. destruct (Qeq_bool x y) eqn:Heq.
  - apply Qeq_bool_iff in Heq. split; [by right|].
    intros [Hlt | [_ ?]]; [|done]. rewrite Heq in Hlt.
    by apply Qlt_irrefl in Hlt.
  - rewrite Qlt_bool_iff. split; [by left|].
    intros [? | [Hxy _]]; [done|]. apply Qeq_bool_iff in Hxy. congruence.
Qed.

Lemma lt_same_class (a b : model) (ka kb : list Q) :
  type a = type b →
  _Ordering._order_by a = Ok ka →
  _Ordering._order_by b = Ok kb →
  _Ordering.__lt__ a b = Ok (Bool (list_lt ka kb))
  ∧ _Ordering.lt a b = Ok (list_lt ka kb).
Proof.
  intros Htype Ha Hb.
  assert (_Ordering.__lt__ a b = Ok (Bool (list_lt ka kb))) as Hlt.
  { unfold _Ordering.__lt__, _Ordering.sametype.
    rewrite bool_decide_eq_false_2 by (intros Hne; by apply Hne).
    by rewrite Ha, Hb. }
  split; [done|]. unfold _Ordering.lt. by rewrite Hlt.
Qed.

(** C3 (as amended).  The ordering key of a Mip, as of a Mice, is
    [phi, mechanism size, purview size]; the key of a Concept is
    [phi, mechanism size]; the key of a BigMip is [phi, subsystem size];
    [a < b] is the lexicographic comparison of the two keys. *)
Theorem order_by_keys :
  (∀ (a b : Mip.t) (ma pa mb pb : list nat),
     Mip.mechanism a = Some ma → Mip.purview a = Some pa →
     Mip.mechanism b = Some mb → Mip.purview b = Some pb →
     _Ordering.__lt__ (AMip a) (AMip b)
     = Ok (Bool (list_lt
           [Mip.phi a; inject_nat (length ma); inject_nat (length pa)]
           [Mip.phi b; inject_nat (length mb); inject_nat (length pb)])))
  ∧ (∀ (a b : Mice.t) (ma pa mb pb : list nat),
     Mice.mechanism a = Some ma → Mice.purview a = Some pa →
     Mice.mechanism b = Some mb → Mice.purview b = Some pb →
     _Ordering.__lt__ (AMice a) (AMice b)
     = Ok (Bool (list_lt
           [Mice.phi a; inject_nat (length ma); inject_nat (length pa)]
           [Mice.phi b; inject_nat (length mb); inject_nat (length pb)])))
  ∧ (∀ a b : Concept.t,
     _Ordering.__lt__ (AConcept a) (AConcept b)
     = Ok (Bool (list_lt
           [Concept.phi a; inject_nat (length (Concept.mechanism a))]
           [Concept.phi b; inject_nat (length (Concept.mechanism b))])))
  ∧ (∀ a b : BigMip.t,
     _Ordering.__lt__ (ABigMip a) (ABigMip b)
     = Ok (Bool (list_lt
           [BigMip.phi a; inject_nat (length (node_indices (BigMip.subsystem a)))]
           [BigMip.phi b; inject_nat (length (node_indices (BigMip.subsystem b)))])))
  ∧ (∀ x1 x2 x3 y1 y2 y3 : Q,
     list_lt [x1; x2; x3] [y1; y2; y3] = true ↔
     (x1 < y1 ∨ (x1 == y1 ∧ (x2 < y2 ∨ (x2 == y2 ∧ x3 < y3))))%Q)
  ∧ (∀ x1 x2 y1 y2 : Q,
     list_lt [x1; x2] [y1; y2] = true ↔ (x1 < y1 ∨ (x1 == y1 ∧ x2 < y2))%Q).
Proof.
  split_and!.
  - intros a b ma pa mb pb Hma Hpa Hmb Hpb.
    apply lt_same_class; [done| |]; simpl;
      unfold _PhiMechanismPurviewOrdering; by rewrite ?Hma, ?Hpa, ?Hmb, ?Hpb.
  - intros a b ma pa mb pb Hma Hpa Hmb Hpb.
    apply lt_same_class; [done| |]; simpl;
      unfold _PhiMechanismPurviewOrdering; by rewrite ?Hma, ?Hpa, ?Hmb, ?Hpb.
  - intros a b. by apply lt_same_class.
  - intros a b. by apply lt_same_class.
  - intros. rewrite !list_lt_cons. simpl. intuition congruence.
  - intros. rewrite !list_lt_cons. simpl. intuition congruence.
Qed.

(** C3 (as stated) fails for Mips: two Mips with the same phi and the same
    mechanism size, and purviews of sizes 1 and 2, are strictly ordered,
    though their [phi, mechanism size] keys are not. *)
Lemma Mip_lt_uses_purview :
  let a := Mip.mk (1 # 2) "past" (Some [0]) (Some [1]) None None None in
  let b := Mip.mk (1 # 2) "past" (Some [0]) (Some [1; 2]) None None None in
  _Ordering.__lt__ (AMip a) (AMip b) = Ok (Bool true)
  ∧ (∃ ka kb, phi_mechanism_key a = Ok ka ∧ phi_mechanism_key b = Ok kb
              ∧ list_lt ka kb = false).
Proof.
  intros a b. split; [by vm_compute|].
  eexists _, _. split_and!; [reflexivity | reflexivity | by vm_compute].
Qed.

Lemma order_by_keys_witness :
  let a := Mip.mk (1 # 2) "past" (Some [0]) (Some [1]) None None None in
  let b := Mip.mk (1 # 2) "past" (Some [0]) (Some [1; 2]) None None None in
  _Ordering.__lt__ (AMip a) (AMip b) = Ok (Bool true).
Proof.
  intros a b.
  exact (proj1 order_by_keys a b [0] [1] [0] [1; 2] eq_refl eq_refl eq_refl eq_refl).
Defined.

(** ** Comparison contract *)

Lemma lt_Ok_type (a b : model) (l : bool) :
  _Ordering.lt a b = Ok l → type b = type a.
Proof.
  unfold _Ordering.lt, _Ordering.__lt__, _Ordering.sametype.
  case_bool_decide as Htype; [done|].
  intros _. by destruct (decide (type b = type a)).
Qed.

Lemma le_value `{Config} (a b : model) (l : bool) :
  _Ordering.lt a b = Ok l →
  _Ordering.__le__ a b
  = Ok (Bool (l || phi_eq (_Ordering.phi a) (_Ordering.phi b))).
Proof.
  intros Hlt. unfold _Ordering.__le__, _Ordering.sametype.
  rewrite bool_decide_eq_false_2
    by (intros Hne; apply Hne; by apply (lt_Ok_type a b l)).
  rewrite Hlt. by destruct l.
Qed.

Lemma ge_value `{Config} (a b : model) (l : bool) :
  _Ordering.lt b a = Ok l →
  _Ordering.__ge__ a b
  = Ok (Bool (l || phi_eq (_Ordering.phi a) (_Ordering.phi b))).
Proof.
  intros Hlt. unfold _Ordering.__ge__, _Ordering.sametype.
  rewrite bool_decide_eq_false_2
    by (intros Hne; apply Hne; symmetry; by apply (lt_Ok_type b a l)).
  rewrite Hlt. by destruct l.
Qed.

Lemma phi_eq_refl `{Config} (x : Q) : (0 <= EPSILON)%Q → phi_eq x x = true.
Proof.
  intros Heps. apply phi_eq_iff. apply Qabs_Qle_condition. split; lra.
Qed.

Lemma unit_mip_lt (x y : Q) (d e : string) :
  _Ordering.lt (AMip (unit_mip x d)) (AMip (unit_mip y e))
  = Ok (list_lt [x; inject_nat 1; inject_nat 1] [y; inject_nat 1; inject_nat 1]).
Proof. by apply lt_same_class. Qed.

Lemma unit_key_lt (x y : Q) :
  list_lt [x; inject_nat 1; inject_nat 1] [y; inject_nat 1; inject_nat 1] = true
  ↔ (x < y)%Q.
Proof.
  rewrite !list_lt_cons. simpl. split; [|by left].
  intros [? | (_ & [Hlt | (_ & [Hlt | (_ & ?)])])]; try done;
    by apply Qlt_irrefl in Hlt.
Qed.

(** C4 (as amended).  [a <= b] is [a < b or phi_eq(a.phi, b.phi)], and
    [a >= b] is [b < a or phi_eq(a.phi, b.phi)]; hence whenever the phi
    values agree within the precision both [a <= b] and [a >= b] hold,
    whatever the other key components are.  With a non-negative precision
    [<=] is reflexive and it is not antisymmetric with respect to [==]:
    two Mips that differ in direction are [<=] and [>=] each other and
    [!=].  With a positive precision [<=] is not transitive. *)
Theorem le_contract `{Config} `{SubsystemEq} :
  (∀ (a b : model) (l : bool),
     _Ordering.lt a b = Ok l →
     _Ordering.__le__ a b
     = Ok (Bool (l || phi_eq (_Ordering.phi a) (_Ordering.phi b))))
  ∧ (∀ (a b : model) (l : bool),
     _Ordering.lt b a = Ok l →
     _Ordering.__ge__ a b
     = Ok (Bool (l || phi_eq (_Ordering.phi a) (_Ordering.phi b))))
  ∧ (∀ (a b : model) (l l' : bool),
     _Ordering.lt a b = Ok l → _Ordering.lt b a = Ok l' →
     phi_eq (_Ordering.phi a) (_Ordering.phi b) = true →
     _Ordering.__le__ a b = Ok (Bool true)
     ∧ _Ordering.__ge__ a b = Ok (Bool true))
  ∧ ((0 <= EPSILON)%Q →
     ∀ (a : model) (k : list Q),
       _Ordering._order_by a = Ok k → _Ordering.__le__ a a = Ok (Bool true))
  ∧ ((0 <= EPSILON)%Q →
     ∃ a b : model,
       _Ordering.__le__ a b = Ok (Bool true)
       ∧ _Ordering.__ge__ a b = Ok (Bool true)
       ∧ __ne__ a b = Ok (Bool true))
  ∧ ((0 < EPSILON)%Q →
     ∃ a b c : model,
       _Ordering.__le__ a b = Ok (Bool true)
       ∧ _Ordering.__le__ b c = Ok (Bool true)
       ∧ _Ordering.__le__ a c = Ok (Bool false)).
Proof.
  split_and!.
  - apply le_value.
  - apply ge_value.
  - intros a b l l' Hab Hba Hphi.
    rewrite (le_value a b l Hab), (ge_value a b l' Hba), Hphi.
    by rewrite !orb_true_r.
  - intros Heps a k Hk.
    destruct (lt_same_class a a k k eq_refl Hk Hk) as [_ Hlt].
    rewrite (le_value a a _ Hlt), phi_eq_refl by done. by rewrite orb_true_r.
  - intros Heps.
    exists (AMip (unit_mip 0 "past")), (AMip (unit_mip 0 "future")).
    rewrite (le_value _ _ _ (unit_mip_lt _ _ _ _)).
    rewrite (ge_value _ _ _ (unit_mip_lt _ _ _ _)). simpl _Ordering.phi.
    change (Mip.phi (unit_mip 0 "past")) with 0%Q.
    change (Mip.phi (unit_mip 0 "future")) with 0%Q.
    rewrite phi_eq_refl by done. rewrite !orb_true_r. split_and!; try done.
    unfold __ne__. rewrite Mip_eq_value. unfold mip_core_eq. simpl.
    by rewrite andb_false_r.
  - intros Heps.
    exists (AMip (unit_mip (2 * EPSILON) "past")),
           (AMip (unit_mip EPSILON "past")),
           (AMip (unit_mip 0 "past")).
    rewrite !(le_value _ _ _ (unit_mip_lt _ _ _ _)). simpl _Ordering.phi.
    change (Mip.phi (unit_mip ?x _)) with x.
    assert (phi_eq (2 * EPSILON) EPSILON = true) as ->.
    { apply phi_eq_iff, Qabs_Qle_condition. split; lra. }
    assert (phi_eq EPSILON 0 = true) as ->.
    { apply phi_eq_iff, Qabs_Qle_condition. split; lra. }
    rewrite !orb_true_r. split_and!; try done.
    assert (phi_eq (2 * EPSILON) 0 = false) as ->.
    { apply not_true_is_false. intros Hphi.
      apply phi_eq_iff, Qabs_Qle_condition in Hphi. lra. }
    assert (list_lt [2 * EPSILON; inject_nat 1; inject_nat 1]%Q
                    [0%Q; inject_nat 1; inject_nat 1] = false) as ->; [|done].
    apply not_true_is_false. intros Hlt. apply unit_key_lt in Hlt. lra.
Qed.

Lemma le_contract_witness :
  let a := AMip (unit_mip (1 # 2) "past") in
  let b := AMip (unit_mip (1 # 2) "future") in
  @_Ordering.__le__ default_config a b = Ok (Bool true)
  ∧ @_Ordering.__ge__ default_config a b = Ok (Bool true).
Proof.
  intros a b.
  apply (proj1 (proj2 (proj2 (@le_contract default_config structural_subsystem_eq)))
           a b false false); by vm_compute.
Defined.

(** C4 (as stated) fails where it calls the ordering a preorder: with the
    precision at one millionth, phi values of 2, 1 and 0 millionths give
    [a <= b] and [b <= c] but not [a <= c]. *)
Lemma le_not_transitive :
  let a := AMip (unit_mip (2 # 1000000) "past") in
  let b := AMip (unit_mip (1 # 1000000) "past") in
  let c := AMip (unit_mip 0 "past") in
  @_Ordering.__le__ default_config a b = Ok (Bool true)
  ∧ @_Ordering.__le__ default_config b c = Ok (Bool true)
  ∧ @_Ordering.__le__ default_config a c = Ok (Bool false).
Proof. intros a b c. split_and!; by vm_compute. Qed.

(** ** Tolerance in equality *)

Lemma Concept_eq_exact_phi (a b : Concept.t) :
  Concept.__eq__ a (Concept.as_obj b) = Ok true →
  (Concept.phi a == Concept.phi b)%Q.
Proof.
  unfold Concept.__eq__. simpl.
  destruct (Qeq_bool (Concept.phi a) (Concept.phi b)) eqn:Hphi; simpl; [|done].
  intros _. by apply Qeq_bool_iff.
Qed.

Lemma BigMip_eq_value `{Config} `{SubsystemEq} (a b : BigMip.t) :
  (Qabs (BigMip.phi a - BigMip.phi b) <= EPSILON)%Q →
  _numpy_aware_eq (BigMip.unpartitioned_constellation a)
                  (BigMip.unpartitioned_constellation b) = Ok true →
  _numpy_aware_eq (BigMip.partitioned_constellation a)
                  (BigMip.partitioned_constellation b) = Ok true →
  subsystem_eq (BigMip.subsystem a) (BigMip.subsystem b) = true →
  subsystem_eq (BigMip.cut_subsystem a) (BigMip.cut_subsystem b) = true →
  BigMip.__eq__ a (BigMip.as_obj b) = Ok true.
Proof.
  intros Hphi Huc Hpc Hs Hcs. apply phi_eq_iff in Hphi.
  unfold BigMip.__eq__, _general_eq. simpl.
  rewrite Hphi, Huc, Hpc. simpl.
  by rewrite Hs, Hcs.
Qed.

(** C7 (as amended).  The equality of Mip, Mice and BigMip compares phi up
    to the precision: two Mips (or the Mips of two Mice) whose phi values
    differ by no more than the precision, with equal directions, mechanisms
    that are tuples over the same nodes, equal unpartitioned repertoires
    and, when both purviews are non-empty, purviews of equal length, are
    equal; two BigMips whose phi values differ by no more than the precision
    and whose constellations and subsystems compare equal are equal.  The
    equality of Concept compares phi exactly. *)
Theorem phi_tolerant_equality `{Config} `{SubsystemEq} :
  (∀ a b : Mip.t,
     (Qabs (Mip.phi a - Mip.phi b) <= EPSILON)%Q →
     Mip.direction a = Mip.direction b →
     same_nodes (Mip.mechanism a) (Mip.mechanism b) →
     array_equal (Mip.unpartitioned_repertoire a)
                 (Mip.unpartitioned_repertoire b) = true →
     purview_len_eq (Mip.purview a) (Mip.purview b) = true →
     Mip.__eq__ a (Mip.as_obj b) = Ok true)
  ∧ (∀ a b : Mice.t,
     (Qabs (Mice.phi a - Mice.phi b) <= EPSILON)%Q →
     Mice.direction a = Mice.direction b →
     same_nodes (Mice.mechanism a) (Mice.mechanism b) →
     array_equal (Mice.repertoire a) (Mice.repertoire b) = true →
     purview_len_eq (Mice.purview a) (Mice.purview b) = true →
     Mice.__eq__ a (Mice.as_obj b) = Ok true)
  ∧ (∀ a b : BigMip.t,
     (Qabs (BigMip.phi a - BigMip.phi b) <= EPSILON)%Q →
     _numpy_aware_eq (BigMip.unpartitioned_constellation a)
                     (BigMip.unpartitioned_constellation b) = Ok true →
     _numpy_aware_eq (BigMip.partitioned_constellation a)
                     (BigMip.partitioned_constellation b) = Ok true →
     subsystem_eq (BigMip.subsystem a) (BigMip.subsystem b) = true →
     subsystem_eq (BigMip.cut_subsystem a) (BigMip.cut_subsystem b) = true →
     BigMip.__eq__ a (BigMip.as_obj b) = Ok true)
  ∧ (∀ a b : Concept.t,
     Concept.__eq__ a (Concept.as_obj b) = Ok true →
     (Concept.phi a == Concept.phi b)%Q).
Proof.
  assert (∀ a b : Mip.t,
     (Qabs (Mip.phi a - Mip.phi b) <= EPSILON)%Q →
     Mip.direction a = Mip.direction b →
     same_nodes (Mip.mechanism a) (Mip.mechanism b) →
     array_equal (Mip.unpartitioned_repertoire a)
                 (Mip.unpartitioned_repertoire b) = true →
     purview_len_eq (Mip.purview a) (Mip.purview b) = true →
     Mip.__eq__ a (Mip.as_obj b) = Ok true) as HMip.
  { intros a b Hphi Hdir Hmech Harr Hlen.
    rewrite Mip_eq_value. unfold mip_core_eq.
    apply phi_eq_iff in Hphi. apply nodes_eq_iff in Hmech.
    by rewrite Hphi, Hmech, Harr, Hlen, bool_decide_eq_true_2. }
  split_and!.
  - exact HMip.
  - intros a b. unfold Mice.__eq__. simpl. apply HMip.
  - apply BigMip_eq_value.
  - apply Concept_eq_exact_phi.
Qed.

(** C7 (as stated) fails for Concept: two concepts that differ only in phi,
    by half a millionth with the precision at one millionth, are not equal,
    though each is equal to itself and [phi_eq] holds of their phi values. *)
Lemma Concept_eq_not_tolerant :
  let a := unit_concept 0 in
  let b := unit_concept (1 # 2000000) in
  @phi_eq default_config (Concept.phi a) (Concept.phi b) = true
  ∧ Concept.__eq__ a (Concept.as_obj a) = Ok true
  ∧ Concept.__eq__ b (Concept.as_obj b) = Ok true
  ∧ Concept.__eq__ a (Concept.as_obj b) = Ok false.
Proof. intros a b. split_and!; by vm_compute. Qed.

Lemma phi_tolerant_equality_witness :
  let a := unit_mip 0 "past" in
  let b := unit_mip (1 # 2000000) "past" in
  @Mip.__eq__ default_config a (Mip.as_obj b) = Ok true.
Proof.
  intros a b.
  apply (proj1 (@phi_tolerant_equality default_config structural_subsystem_eq));
    try by vm_compute.
  apply nodes_eq_iff. by vm_compute.
Defined.

(** ** Missing attributes *)

Lemma general_eq_loop_lacks `{Config} (fields : list field) :
  Exists lacks fields → general_eq_loop fields ≠ Ok true.
Proof.
  induction fields as [|f fields IH]; intros Hex; [by inversion Hex|].
  assert (lacks f ∨ general_eq_loop fields ≠ Ok true) as Hcases.
  { inversion Hex; subst; [by left | right; by apply IH]. }
  clear Hex IH.
  destruct f as [a b | a b | A eqA a b]; simpl;
    destruct a as [|_a]; simpl; try done;
    destruct b as [|_b]; simpl; try done.
  - destruct Hcases as [? | Hrest]; [done|].
    by destruct (phi_eq _a _b).
  - destruct Hcases as [? | Hrest]; [done|].
    destruct _a as [s|], _b as [t|]; simpl; try done.
    by destruct (bool_decide (set_of s = set_of t)).
  - destruct Hcases as [? | Hrest]; [done|].
    destruct (_numpy_aware_eq _a _b) as [[|]|e]; by simpl.
Qed.

Lemma general_eq_no_AttributeError `{Config} (fields : list field) :
  _general_eq fields ≠ Raise AttributeError.
Proof. unfold _general_eq. by destruct (general_eq_loop fields) as [r|[]]. Qed.

Lemma general_eq_lacks `{Config} (fields : list field) :
  Exists lacks fields →
  _general_eq fields = Ok false
  ∨ ∃ e, _general_eq fields = Raise e ∧ e ≠ AttributeError.
Proof.
  intros Hex. apply general_eq_loop_lacks in Hex. unfold _general_eq.
  destruct (general_eq_loop fields) as [[|]|[]]; try done; eauto.
Qed.

(** Every step of the loop over the attributes of a Mip either decides or
    reads a missing attribute: nothing else can go wrong. *)
Lemma Mip_general_eq_lacks `{Config} (a : Mip.t) (o : Mip.obj) :
  Mip.o_phi o = Missing ∨ Mip.o_direction o = Missing
  ∨ Mip.o_mechanism o = Missing ∨ Mip.o_unpartitioned_repertoire o = Missing →
  _general_eq (Mip.fields (Mip.as_obj a) o <$> Mip.attrs) = Ok false.
Proof.
  intros Hlacks. unfold _general_eq. simpl.
  destruct o as [p d m pv u]. simpl in *.
  destruct p as [|p]; simpl; [done|].
  destruct (phi_eq (Mip.phi a) p); simpl; [|done].
  destruct d as [|d]; simpl; [done|].
  destruct (bool_decide (Mip.direction a = d)); simpl; [|done].
  destruct m as [|m]; simpl; [done|].
  destruct (Mip.mechanism a) as [s|], m as [t|]; simpl; try done.
  destruct (bool_decide (set_of s = set_of t)); simpl; [|done].
  destruct u as [|u]; simpl; [done|].
  destruct Hlacks as [? | [? | [? | ?]]]; done.
Qed.

(** C8 (as amended).  [_general_eq] never lets a missing-attribute fault
    out.  A BigMip compared with an object that lacks one of the five
    attributes is not equal to it: the comparison gives [False], unless the
    comparison of an attribute that comes earlier raised a fault of another
    kind.  A Mip compared with an object that lacks [phi], [direction],
    [mechanism] or [unpartitioned_repertoire] gives [False] when the Mip's
    own purview is empty or [None], or the object has a [purview].  The
    equality of Mice reads [other.mip], and the equality of Concept reads
    [other.cause], outside any guard: when that attribute is missing the
    fault propagates. *)
Theorem missing_attribute_equality `{Config} `{SubsystemEq} :
  (∀ fields : list field, _general_eq fields ≠ Raise AttributeError)
  ∧ (∀ (a : BigMip.t) (o : BigMip.obj),
       BigMip.o_phi o = Missing
       ∨ BigMip.o_unpartitioned_constellation o = Missing
       ∨ BigMip.o_partitioned_constellation o = Missing
       ∨ BigMip.o_subsystem o = Missing
       ∨ BigMip.o_cut_subsystem o = Missing →
       BigMip.__eq__ a o = Ok false
       ∨ ∃ e, BigMip.__eq__ a o = Raise e ∧ e ≠ AttributeError)
  ∧ (∀ (a : BigMip.t) (o : BigMip.obj),
       BigMip.o_phi o = Missing → BigMip.__eq__ a o = Ok false)
  ∧ (∀ (a : Mip.t) (o : Mip.obj),
       Mip.o_phi o = Missing ∨ Mip.o_direction o = Missing
       ∨ Mip.o_mechanism o = Missing
       ∨ Mip.o_unpartitioned_repertoire o = Missing →
       truthy (Mip.purview a) = false ∨ Mip.o_purview o ≠ Missing →
       Mip.__eq__ a o = Ok false)
  ∧ (∀ (m : Mice.t) (o : Mice.obj),
       Mice.o_mip o = Missing → Mice.__eq__ m o = Raise AttributeError)
  ∧ (∀ (c : Concept.t) (o : Concept.obj),
       Concept.o_cause o = Missing → Concept.__eq__ c o = Raise AttributeError).
Proof.
  split_and!.
  - apply general_eq_no_AttributeError.
  - intros a o Hlacks. unfold BigMip.__eq__. apply general_eq_lacks.
    simpl. rewrite !Exists_cons. simpl. tauto.
  - intros a o Hphi. unfold BigMip.__eq__, _general_eq. simpl.
    by rewrite Hphi.
  - intros a o Hlacks Hpurview. unfold Mip.__eq__.
    rewrite (Mip_general_eq_lacks a o Hlacks).
    destruct (truthy (Mip.purview a)); simpl; [|done].
    destruct Hpurview as [? | Hpurview]; [done|].
    destruct (Mip.o_purview o) as [|pv]; [done|]. simpl.
    by destruct (truthy pv).
  - intros m o Hmip. unfold Mice.__eq__. by rewrite Hmip.
  - intros c o Hcause. unfold Concept.__eq__. by rewrite Hcause.
Qed.

(** C8 (as stated) fails for Mice: compared with an object that has no
    [mip] attribute, the comparison raises [AttributeError]. *)
Lemma Mice_eq_missing_mip :
  @Mice.__eq__ default_config (Mice.mk (unit_mip 0 "past")) (Mice.mkObj Missing)
  = Raise AttributeError.
Proof. reflexivity. Qed.

Lemma missing_attribute_equality_witness :
  let o := Mip.mkObj Missing (Has "past") (Has (Some [0])) (Has (Some [0])) (Has None) in
  @Mip.__eq__ default_config (unit_mip 0 "past") o = Ok false.
Proof.
  intros o.
  apply (proj1 (proj2 (proj2 (proj2
           (@missing_attribute_equality default_config structural_subsystem_eq))))).
  - by left.
  - by right.
Defined.

(** ** KCut: the prose of the specification on the fixture of the test *)

(** On the k-cut ((0,2)->(0,), ()->(2,), (3,)->(3,)) of
    [test_concept_style_cuts.py], the definitions read off the prose of the
    specification give the indices (0,2,3) and the four values of
    [splits_mechanism] that the test asserts, but only three cut mechanisms,
    where the test asserts five: under the prose rule the mechanisms (2,) and
    (0,2) touch the mechanism of one part only. *)
Lemma KCut_prose_on_test_fixture :
  let kcut := [mkPart [0; 2] [0]; mkPart [] [2]; mkPart [3] [3]] in
  KCut.indices kcut = [0; 2; 3]
  ∧ KCut.splits_mechanism kcut [0; 3] = true
  ∧ KCut.splits_mechanism kcut [2; 3] = true
  ∧ KCut.splits_mechanism kcut [0] = false
  ∧ KCut.splits_mechanism kcut [3] = false
  ∧ KCut.all_cut_mechanisms kcut = [[0; 3]; [2; 3]; [0; 2; 3]].
Proof. intros kcut. split_and!; by vm_compute. Qed.

(** * Further properties *)

(** ** Cut mechanisms *)

Lemma splits_truthy_elems (c : Cut) (m : list nat) :
  set_truthy (Cut.splits_mechanism c m) = true ↔
  (∃ i, i ∈ m ∧ i ∈ severed c) ∧ (∃ j, j ∈ m ∧ j ∈ intact c).
Proof.
  unfold Cut.splits_mechanism, set_and, set_truthy, set_of.
  assert (∀ l : list nat,
    (list_to_set m ∩ list_to_set l : gset nat) ≠ ∅ ↔ ∃ i, i ∈ m ∧ i ∈ l) as Hne.
  { intros l. split.
    - intros Hne. apply set_choose_L in Hne as [i Hi].
      exists i. set_solver.
    - intros (i & ? & ?). set_solver. }
  destruct (decide ((list_to_set m ∩ list_to_set (severed c) : gset nat) ≠ ∅))
    as [Hsev|Hsev].
  - rewrite (bool_decide_eq_true_2 _ Hsev), bool_decide_eq_true, !Hne.
    apply Hne in Hsev. tauto.
  - rewrite (bool_decide_eq_false_2 _ Hsev), bool_decide_eq_true.
    rewrite <- !Hne. tauto.
Qed.

Lemma elem_of_combinations (k : nat) (l m : list nat) :
  m ∈ KCut.combinations k l ↔ m `sublist_of` l ∧ length m = k.
Proof.
  revert k m. induction l as [|x l IH]; intros [|k] m; simpl.
  - rewrite list_elem_of_singleton. split.
    + intros ->. split; [constructor | done].
    + intros [_ Hlen]. by apply nil_length_inv.
  - rewrite elem_of_nil. split; [done|].
    intros [Hsub Hlen]. apply sublist_nil_r in Hsub. by subst.
  - rewrite list_elem_of_singleton. split.
    + intros ->. split; [apply sublist_nil_l | done].
    + intros [_ Hlen]. by apply nil_length_inv.
  - rewrite elem_of_app, list_elem_of_fmap, sublist_cons_r. split.
    + intros [(m' & -> & Hm') | Hm].
      * apply IH in Hm' as [Hsub Hlen]. split; [right; eauto | simpl; lia].
      * apply IH in Hm as [Hsub Hlen]. split; [by left | done].
    + intros [[Hsub | (m' & -> & Hsub)] Hlen].
      * right. by apply IH.
      * left. exists m'. split; [done|]. apply IH. split; [done|].
        simpl in Hlen. lia.
Qed.

Lemma elem_of_powerset (l m : list nat) : m ∈ powerset l ↔ m `sublist_of` l.
Proof.
  unfold powerset. rewrite list_elem_of_join. split.
  - intros (ms & Hm & Hms). apply list_elem_of_fmap in Hms as (k & -> & _).
    by apply elem_of_combinations in Hm as [? _].
  - intros Hsub. exists (KCut.combinations (length m) l). split.
    + by apply elem_of_combinations.
    + apply list_elem_of_fmap. exists (length m). split; [done|].
      apply elem_of_seq. apply sublist_length in Hsub. lia.
Qed.

Lemma combinations_length (k : nat) (l m : list nat) :
  m ∈ KCut.combinations k l → length m = k.
Proof. intros Hm. by apply elem_of_combinations in Hm as [_ ?]. Qed.

Lemma same_length_sorted (k : nat) (ms : list (list nat)) :
  (∀ m, m ∈ ms → length m = k) →
  StronglySorted (λ a b : list nat, length a ≤ length b) ms.
Proof.
  induction ms as [|m ms IH]; intros Hall; constructor.
  - apply IH. intros m' Hm'. apply Hall. by right.
  - apply Forall_forall. intros m' Hm'.
    rewrite (Hall m) by left. rewrite (Hall m') by by right. done.
Qed.

Lemma elem_of_combinations_seq (l m : list nat) (start len : nat) :
  m ∈ mjoin ((λ k, KCut.combinations k l) <$> seq start len) →
  start ≤ length m.
Proof.
  intros Hm. apply list_elem_of_join in Hm as (ms & Hm & Hms).
  apply list_elem_of_fmap in Hms as (k & -> & Hk).
  apply elem_of_seq in Hk. apply combinations_length in Hm. lia.
Qed.

Lemma powerset_sorted (l : list nat) :
  StronglySorted (λ a b : list nat, length a ≤ length b) (powerset l).
Proof.
  unfold powerset. generalize (S (length l)) as len. generalize 0 as start.
  intros start len. revert start.
  induction len as [|len IH]; intros start; simpl; [constructor|].
  apply StronglySorted_app_2.
  - intros a b Ha Hb. apply combinations_length in Ha.
    apply elem_of_combinations_seq in Hb. lia.
  - apply (same_length_sorted start). intros m. apply combinations_length.
  - apply IH.
Qed.

Lemma filter_sorted {A} (R : relation A) (P : A → Prop) `{∀ x, Decision (P x)}
    (l : list A) :
  StronglySorted R l → StronglySorted R (filter P l).
Proof.
  induction 1 as [|x l Hl IH Hx]; [constructor|].
  rewrite filter_cons. destruct (decide (P x)); [|done].
  constructor; [done|].
  apply Forall_forall. intros y Hy. apply list_elem_of_filter in Hy as [_ Hy].
  rewrite Forall_forall in Hx. by apply Hx.
Qed.

Lemma NoDup_combinations (k : nat) (l : list nat) :
  NoDup l → NoDup (KCut.combinations k l).
Proof.
  intros Hl. revert k. induction Hl as [|x l Hx Hl IH]; intros [|k]; simpl.
  - apply NoDup_singleton.
  - constructor.
  - apply NoDup_singleton.
  - apply NoDup_app. split_and!.
    + apply (NoDup_fmap_2 _). apply IH.
    + intros m Hm Hm'.
      apply list_elem_of_fmap in Hm as (m' & -> & _).
      apply elem_of_combinations in Hm' as [Hsub _].
      apply Hx. apply (elem_of_sublist (x :: m') l x); [by left | done].
    + apply IH.
Qed.

Lemma NoDup_powerset (l : list nat) : NoDup l → NoDup (powerset l).
Proof.
  intros Hl. unfold powerset.
  generalize (S (length l)) as len. generalize 0 as start.
  intros start len. revert start.
  induction len as [|len IH]; intros start; simpl; [constructor|].
  apply NoDup_app. split_and!.
  - by apply NoDup_combinations.
  - intros m Hm Hm'. apply combinations_length in Hm.
    apply elem_of_combinations_seq in Hm'. lia.
  - apply IH.
Qed.

Lemma combinations_lex_sorted (k : nat) (l : list nat) :
  StronglySorted lt l → StronglySorted lex_lt (KCut.combinations k l).
Proof.
  intros Hl. revert k. induction Hl as [|x l Hl IH Hx]; intros [|k]; simpl.
  - repeat constructor.
  - constructor.
  - repeat constructor.
  - apply StronglySorted_app_2.
    + intros a b Ha Hb.
      apply list_elem_of_fmap in Ha as (a' & -> & _).
      apply elem_of_combinations in Hb as [Hsub Hlen].
      destruct b as [|y b]; [done|]. simpl. left.
      rewrite Forall_forall in Hx. apply Hx.
      apply (elem_of_sublist (y :: b) l y); [by left | done].
    + specialize (IH k). induction IH as [|a ms Hms IHms Ha]; simpl;
        constructor; [done|].
      apply Forall_fmap, Forall_forall. intros b Hb. simpl. right.
      split; [done|]. rewrite Forall_forall in Ha. by apply Ha.
    + apply IH.
Qed.

Lemma powerset_shortlex (l : list nat) :
  StronglySorted lt l → StronglySorted shortlex (powerset l).
Proof.
  intros Hl. unfold powerset.
  generalize (S (length l)) as len. generalize 0 as start.
  intros start len. revert start.
  induction len as [|len IH]; intros start; simpl; [constructor|].
  apply StronglySorted_app_2.
  - intros a b Ha Hb. apply combinations_length in Ha.
    apply elem_of_combinations_seq in Hb. left. lia.
  - pose proof (combinations_lex_sorted start l Hl) as Hlex.
    assert (∀ m, m ∈ KCut.combinations start l → length m = start) as Hlen
      by (intros m; apply combinations_length).
    induction Hlex as [|a ms Hms IHms Ha]; constructor.
    + apply IHms. intros m Hm. apply Hlen. by right.
    + apply Forall_forall. intros b Hb. right. split.
      * rewrite (Hlen a) by left. rewrite (Hlen b) by by right. done.
      * rewrite Forall_forall in Ha. by apply Ha.
  - apply IH.
Qed.

(** X1.  [all_cut_mechanisms] returns exactly the sub-tuples of the
    candidate indices that have a node on each side of the cut: it is the
    powerset of the candidates, in the powerset's order, with the sub-tuples
    that are not split left out.  The mechanisms come by increasing size;
    when the candidates are in ascending order they come in the canonical
    order of subsets, by size and then lexicographically; and each comes
    once when the candidates are distinct. *)
Theorem all_cut_mechanisms_iff (c : Cut) (candidate_indices m : list nat) :
  (m ∈ all_cut_mechanisms c candidate_indices ↔
   m `sublist_of` candidate_indices
   ∧ (∃ i, i ∈ m ∧ i ∈ severed c) ∧ (∃ j, j ∈ m ∧ j ∈ intact c))
  ∧ all_cut_mechanisms c candidate_indices
    = filter (λ m, Exists (λ i, i ∈ severed c) m ∧ Exists (λ j, j ∈ intact c) m)
             (powerset candidate_indices)
  ∧ StronglySorted (λ a b : list nat, length a ≤ length b)
                   (all_cut_mechanisms c candidate_indices)
  ∧ (StronglySorted lt candidate_indices →
     StronglySorted shortlex (all_cut_mechanisms c candidate_indices))
  ∧ (NoDup candidate_indices → NoDup (all_cut_mechanisms c candidate_indices)).
Proof.
  split_and!.
  - unfold all_cut_mechanisms.
    rewrite list_elem_of_filter, elem_of_powerset, splits_truthy_elems. tauto.
  - unfold all_cut_mechanisms. apply list_filter_iff. intros m'.
    rewrite splits_truthy_elems, !Exists_exists. naive_solver.
  - unfold all_cut_mechanisms. apply filter_sorted, powerset_sorted.
  - intros Hsorted. unfold all_cut_mechanisms.
    by apply filter_sorted, powerset_shortlex.
  - intros Hnodup. unfold all_cut_mechanisms.
    by apply NoDup_filter, NoDup_powerset.
Qed.

Lemma all_cut_mechanisms_iff_witness :
  StronglySorted shortlex (all_cut_mechanisms (mkCut [0] [1; 2]) [0; 1; 2])
  ∧ NoDup (all_cut_mechanisms (mkCut [0] [1; 2]) [0; 1; 2]).
Proof.
  pose proof (all_cut_mechanisms_iff (mkCut [0] [1; 2]) [0; 1; 2] [])
    as (_ & _ & _ & Hshortlex & Hnodup).
  split.
  - apply Hshortlex. repeat constructor.
  - apply Hnodup. repeat constructor; rewrite ?elem_of_cons, ?elem_of_nil; lia.
Defined.

(** X2.  When no node is on both sides of the cut, a mechanism that the cut
    splits has at least two nodes: [all_cut_mechanisms] returns neither the
    empty tuple nor a singleton. *)
Theorem all_cut_mechanisms_length (c : Cut) (candidate_indices m : list nat) :
  (∀ i, i ∈ severed c → i ∉ intact c) →
  m ∈ all_cut_mechanisms c candidate_indices →
  2 ≤ length m.
Proof.
  intros Hdisj Hm.
  unfold all_cut_mechanisms in Hm.
  apply list_elem_of_filter in Hm as [Hsplit _].
  apply splits_truthy_elems in Hsplit as [(i & Him & His) (j & Hjm & Hji)].
  destruct m as [|x [|y m]]; simpl; [| |lia].
  - by apply elem_of_nil in Him.
  - apply list_elem_of_singleton in Him, Hjm. subst.
    by apply Hdisj in His.
Qed.

Lemma all_cut_mechanisms_length_witness :
  [0; 2] ∈ all_cut_mechanisms (mkCut [0] [1; 2]) [0; 1; 2] ∧ 2 ≤ length [0; 2].
Proof.
  assert (Hin : [0; 2] ∈ all_cut_mechanisms (mkCut [0] [1; 2]) [0; 1; 2]).
  { vm_compute. set_solver. }
  split; [exact Hin|].
  apply (all_cut_mechanisms_length (mkCut [0] [1; 2]) [0; 1; 2] [0; 2]);
    [|exact Hin].
  simpl. intros i Hi. apply list_elem_of_singleton in Hi. subst.
  rewrite !elem_of_cons, elem_of_nil. lia.
Defined.

(** X3.  Splitting is monotone in the mechanism and symmetric in the two
    sides of the cut: a mechanism that contains every node of a split
    mechanism is split, and exchanging [severed] and [intact] does not change
    which mechanisms are split.  A cut with an empty side splits nothing. *)
Theorem splits_mechanism_monotone_symmetric (c : Cut) (m m' : list nat) :
  ((∀ i, i ∈ m → i ∈ m') →
   set_truthy (Cut.splits_mechanism c m) = true →
   set_truthy (Cut.splits_mechanism c m') = true)
  ∧ set_truthy (Cut.splits_mechanism (mkCut (intact c) (severed c)) m)
    = set_truthy (Cut.splits_mechanism c m)
  ∧ (severed c = [] ∨ intact c = [] →
     set_truthy (Cut.splits_mechanism c m) = false).
Proof.
  split_and!.
  - intros Hsub. rewrite !splits_truthy_elems.
    intros [(i & ? & ?) (j & ? & ?)]. split; eauto.
  - apply eq_true_iff_eq. rewrite !splits_truthy_elems. simpl. tauto.
  - intros Hempty. apply not_true_is_false. rewrite splits_truthy_elems.
    intros [(i & _ & Hi) (j & _ & Hj)].
    destruct Hempty as [Hs | Hi']; [rewrite Hs in Hi | rewrite Hi' in Hj];
      by apply elem_of_nil in Hi || by apply elem_of_nil in Hj.
Qed.

(** ** The cut matrix *)

Lemma any_eq_1_indicator (_from to rows cols : list nat) :
  any_eq_1 (indicator _from to rows cols) = true ↔
  ∃ i j, i ∈ rows ∧ j ∈ cols ∧ i ∈ _from ∧ j ∈ to.
Proof.
  rewrite any_eq_1_iff. unfold indicator. split.
  - intros (row & Hrow & Hone).
    apply list_elem_of_fmap in Hrow as (i & -> & Hi).
    apply list_elem_of_fmap in Hone as (j & Hval & Hj).
    exists i, j.
    destruct (bool_decide (i ∈ _from)) eqn:Hf, (bool_decide (j ∈ to)) eqn:Ht;
      simpl in Hval; try done.
    apply bool_decide_eq_true in Hf, Ht. done.
  - intros (i & j & Hi & Hj & Hf & Ht).
    eexists. split.
    + apply list_elem_of_fmap. by exists i.
    + apply list_elem_of_fmap. exists j. split; [|done].
      by rewrite !bool_decide_eq_true_2.
Qed.

Lemma length_set_to_tuple `{SetOrder} (s : gset nat) :
  length (set_to_tuple s) = length (elements s).
Proof. by rewrite set_to_tuple_perm. Qed.

(** X4.  Whatever the order in which the set of indices is iterated,
    [Cut.cut_matrix] returns a square 0/1 matrix with one row and one column
    per distinct index of the cut; when no node is on both sides its diagonal
    is zero; and it contains a 1 exactly when neither side is empty. *)
Theorem cut_matrix_shape `{SetOrder} (c : Cut) :
  ∃ m, Cut.cut_matrix c = Ok m
       ∧ length m = length (elements (set_of (severed c ++ intact c)))
       ∧ Forall (λ row, length row = length m
                        ∧ Forall (λ x, x = 0%Z ∨ x = 1%Z) row) m
       ∧ ((∀ i, i ∈ severed c → i ∉ intact c) →
          ∀ a row, m !! a = Some row → row !! a = Some 0%Z)
       ∧ (any_eq_1 m = true ↔ severed c ≠ [] ∧ intact c ≠ []).
Proof.
  eexists. split; [apply cut_matrix_indicator|].
  set (idx := set_to_tuple (set_of (severed c ++ intact c))).
  assert (Hidx : ∀ i, i ∈ idx ↔ i ∈ severed c ∨ i ∈ intact c).
  { intros i. unfold idx. rewrite elem_of_set_to_tuple. unfold set_of.
    by rewrite elem_of_list_to_set, elem_of_app. }
  unfold indicator. split_and!.
  - rewrite length_fmap. apply length_set_to_tuple.
  - apply Forall_fmap, Forall_forall. intros i _. simpl.
    rewrite !length_fmap. split; [done|].
    apply Forall_fmap, Forall_forall. intros j _. simpl.
    destruct (_ && _); auto.
  - intros Hdisj a row Hrow.
    apply list_lookup_fmap_Some in Hrow as (i & -> & Hi).
    rewrite list_lookup_fmap. fold idx. rewrite Hi. simpl. f_equal.
    destruct (bool_decide (i ∈ severed c)) eqn:Hs; [|done].
    apply bool_decide_eq_true in Hs. apply Hdisj in Hs.
    by rewrite (bool_decide_eq_false_2 _ Hs).
  - fold (indicator (severed c) (intact c) idx idx).
    rewrite any_eq_1_indicator. split.
    + intros (i & j & _ & _ & Hi & Hj).
      split; intros Hnil; [rewrite Hnil in Hi | rewrite Hnil in Hj];
        by apply elem_of_nil in Hi || by apply elem_of_nil in Hj.
    + intros [Hs Hi].
      destruct (severed c) as [|i s] eqn:Es; [done|].
      destruct (intact c) as [|j t] eqn:Ei; [done|].
      exists i, j. rewrite !Hidx, !elem_of_cons. tauto.
Qed.

(** ** Rich comparison *)

(** X5.  Between containers of different classes every rich comparison of
    [_Ordering] answers [NotImplemented], and the operator [<] is a
    [TypeError]. *)
Theorem sametype_NotImplemented `{Config} `{SubsystemEq} (a b : model) :
  type a ≠ type b →
  _Ordering.__lt__ a b = Ok NotImplemented
  ∧ _Ordering.__le__ a b = Ok NotImplemented
  ∧ _Ordering.__gt__ a b = Ok NotImplemented
  ∧ _Ordering.__ge__ a b = Ok NotImplemented
  ∧ __ne__ a b = Ok NotImplemented
  ∧ _Ordering.lt a b = Raise TypeError.
Proof.
  intros Htype.
  assert (bool_decide (type b ≠ type a) = true) as Hdec.
  { apply bool_decide_eq_true. congruence. }
  unfold _Ordering.lt, _Ordering.__lt__, _Ordering.__le__, _Ordering.__gt__,
    _Ordering.__ge__, _Ordering.sametype. rewrite Hdec.
  split_and!; try done.
  by destruct a, b.
Qed.

Lemma sametype_NotImplemented_witness :
  @_Ordering.__le__ default_config
     (AMip (unit_mip 0 "past")) (AConcept (unit_concept 0))
  = Ok NotImplemented.
Proof.
  apply (@sametype_NotImplemented default_config structural_subsystem_eq
           (AMip (unit_mip 0 "past")) (AConcept (unit_concept 0))).
  discriminate.
Defined.

Lemma list_lt_irrefl (xs : list Q) : list_lt xs xs = false.
Proof.
  induction xs as [|x xs IH]; [done|]. simpl.
  by rewrite (proj2 (Qeq_bool_iff x x) (Qeq_refl x)).
Qed.

Lemma list_lt_trans (xs ys zs : list Q) :
  list_lt xs ys = true → list_lt ys zs = true → list_lt xs zs = true.
Proof.
  revert ys zs. induction xs as [|x xs IH]; intros [|y ys] [|z zs]; try done.
  rewrite !list_lt_cons.
  intros [Hxy | [Hxy Hrest]] [Hyz | [Hyz Hrest']].
  - left. lra.
  - left. lra.
  - left. lra.
  - right. split; [lra|]. by apply (IH ys).
Qed.

Lemma list_lt_asym (xs ys : list Q) :
  list_lt xs ys = true → list_lt ys xs = false.
Proof.
  intros Hlt. apply not_true_is_false. intros Hgt.
  pose proof (list_lt_trans _ _ _ Hlt Hgt) as Hrefl.
  by rewrite list_lt_irrefl in Hrefl.
Qed.

Lemma lt_inv (a b : model) (l : bool) :
  _Ordering.lt a b = Ok l →
  type b = type a
  ∧ ∃ ka kb, _Ordering._order_by a = Ok ka ∧ _Ordering._order_by b = Ok kb
             ∧ l = list_lt ka kb.
Proof.
  intros Hlt. split; [by apply (lt_Ok_type a b l)|].
  revert Hlt.
  unfold _Ordering.lt, _Ordering.__lt__, _Ordering.sametype.
  case_bool_decide; [done|].
  destruct (_Ordering._order_by a) as [ka|]; simpl; [|done].
  destruct (_Ordering._order_by b) as [kb|]; simpl; [|done].
  intros [= <-]. eauto.
Qed.

(** X6.  On containers of one class [<] is a strict order: nothing is below
    itself, [a < b] excludes [b < a], and [a < b] with [b < c] gives
    [a < c]. *)
Theorem lt_strict_order (a b c : model) :
  (∀ k, _Ordering._order_by a = Ok k → _Ordering.lt a a = Ok false)
  ∧ (_Ordering.lt a b = Ok true → _Ordering.lt b a = Ok false)
  ∧ (_Ordering.lt a b = Ok true → _Ordering.lt b c = Ok true →
     _Ordering.lt a c = Ok true).
Proof.
  split_and!.
  - intros k Hk.
    destruct (lt_same_class a a k k eq_refl Hk Hk) as [_ ->].
    by rewrite list_lt_irrefl.
  - intros Hab. apply lt_inv in Hab as (Htype & ka & kb & Ha & Hb & Hlt).
    destruct (lt_same_class b a kb ka Htype Hb Ha) as [_ ->].
    by rewrite (list_lt_asym ka kb).
  - intros Hab Hbc.
    apply lt_inv in Hab as (Hba & ka & kb & Ha & Hb & Hlt).
    apply lt_inv in Hbc as (Hcb & kb' & kc & Hb' & Hc & Hlt').
    rewrite Hb in Hb'. injection Hb' as <-.
    destruct (lt_same_class a c ka kc) as [_ ->]; try done; [congruence|].
    by rewrite (list_lt_trans ka kb kc).
Qed.

Lemma lt_strict_order_witness :
  let a := AMip (unit_mip 0 "past") in
  let b := AMip (unit_mip (1 # 2) "past") in
  let c := AMip (unit_mip 1 "past") in
  _Ordering.lt a c = Ok true.
Proof.
  intros a b c.
  apply (proj2 (proj2 (lt_strict_order a b c))); by vm_compute.
Defined.

Lemma phi_eq_sym `{Config} (x y : Q) : phi_eq x y = phi_eq y x.
Proof.
  apply eq_true_iff_eq. rewrite !phi_eq_iff.
  by rewrite (Qabs_Qminus x y).
Qed.

Lemma phi_eq_Qeq `{Config} (x y : Q) :
  (0 <= EPSILON)%Q → (x == y)%Q → phi_eq x y = true.
Proof.
  intros Heps Hxy. apply phi_eq_iff, Qabs_Qle_condition. split; lra.
Qed.

Lemma order_by_head (a : model) (k : list Q) :
  _Ordering._order_by a = Ok k → ∃ rest, k = _Ordering.phi a :: rest.
Proof.
  destruct a as [m|m|c|b]; simpl;
    unfold _PhiMechanismPurviewOrdering, _PhiMechanismOrdering,
      _PhiSubsystemOrdering, Mice.phi, Mice.mechanism, Mice.purview.
  - destruct (Mip.mechanism m), (Mip.purview m); simpl; intros [= <-]; eauto.
  - destruct (Mip.mechanism _), (Mip.purview _); simpl; intros [= <-]; eauto.
  - simpl. intros [= <-]; eauto.
  - intros [= <-]; eauto.
Qed.

Lemma list_lt_neither (x y : Q) (xs ys : list Q) :
  list_lt (x :: xs) (y :: ys) = false →
  list_lt (y :: ys) (x :: xs) = false →
  (x == y)%Q.
Proof.
  intros Hxy Hyx.
  apply not_true_iff_false in Hxy, Hyx. rewrite list_lt_cons in Hxy, Hyx.
  destruct (Q_dec x y) as [[Hlt | Hgt] | Heq]; [tauto | tauto | done].
Qed.

(** X7.  [a >= b] is [b <= a] and [a > b] is [b < a], also in what they
    raise; and with a non-negative precision any two containers of one class
    whose keys are defined are comparable: [a <= b] or [b <= a]. *)
Theorem le_total_reflected `{Config} (a b : model) :
  _Ordering.__ge__ a b = _Ordering.__le__ b a
  ∧ _Ordering.__gt__ a b = _Ordering.__lt__ b a
  ∧ ((0 <= EPSILON)%Q → type a = type b →
     (∃ k, _Ordering._order_by a = Ok k) →
     (∃ k, _Ordering._order_by b = Ok k) →
     _Ordering.__le__ a b = Ok (Bool true)
     ∨ _Ordering.__le__ b a = Ok (Bool true)).
Proof.
  split_and!.
  - unfold _Ordering.__ge__, _Ordering.__le__, _Ordering.sametype.
    rewrite (phi_eq_sym (_Ordering.phi a)).
    by rewrite (bool_decide_ext (type b ≠ type a) (type a ≠ type b))
      by (split; congruence).
  - unfold _Ordering.__gt__, _Ordering.__lt__, _Ordering.lt,
      _Ordering.__lt__, _Ordering.sametype.
    rewrite (bool_decide_ext (type b ≠ type a) (type a ≠ type b))
      by (split; congruence).
    case_bool_decide; [done|].
    destruct (_Ordering._order_by b) as [kb|]; simpl; [|done].
    by destruct (_Ordering._order_by a) as [ka|].
  - intros Heps Htype [ka Ha] [kb Hb].
    destruct (lt_same_class a b ka kb Htype Ha Hb) as [_ Hab].
    destruct (lt_same_class b a kb ka (eq_sym Htype) Hb Ha) as [_ Hba].
    rewrite (le_value a b _ Hab), (le_value b a _ Hba).
    destruct (list_lt ka kb) eqn:Hlt; [by left|].
    destruct (list_lt kb ka) eqn:Hgt; [by right|].
    left. simpl.
    apply order_by_head in Ha as [ra ->]. apply order_by_head in Hb as [rb ->].
    by rewrite (phi_eq_Qeq _ _ Heps (list_lt_neither _ _ _ _ Hlt Hgt)).
Qed.

Lemma le_total_reflected_witness :
  let a := AMip (unit_mip 1 "past") in
  let b := AMip (unit_mip 0 "past") in
  @_Ordering.__le__ default_config a b = Ok (Bool true)
  ∨ @_Ordering.__le__ default_config b a = Ok (Bool true).
Proof.
  intros a b.
  apply (proj2 (proj2 (@le_total_reflected default_config a b)));
    [by vm_compute | done | by eexists | by eexists].
Defined.

(** ** Equality helpers *)

Lemma all_zip_true {A} (f : A → A → result bool) (a b : list A) :
  length a = length b →
  all_zip f a b = Ok true ↔ Forall2 (λ x y, f x y = Ok true) a b.
Proof.
  revert b. induction a as [|x a IH]; intros [|y b] Hlen; try done; simpl.
  injection Hlen as Hlen. rewrite Forall2_cons.
  destruct (f x y) as [[|]|e]; simpl.
  - rewrite (IH b Hlen). tauto.
  - split; [done | by intros [? _]].
  - split; [done | by intros [? _]].
Qed.

(** X8.  On two tuples [_numpy_aware_eq] is true exactly when they have the
    same length and every pair of corresponding elements compares true; on
    tuples of different lengths it is false without comparing any element. *)
Theorem numpy_aware_eq_tuples {A} `{NumpyAwareEq A} (a b : list A) :
  (_numpy_aware_eq a b = Ok true ↔
   Forall2 (λ x y, _numpy_aware_eq x y = Ok true) a b)
  ∧ (length a ≠ length b → _numpy_aware_eq a b = Ok false).
Proof.
  unfold _numpy_aware_eq at 1 3, iterable_numpy_aware_eq.
  destruct (length a =? length b) eqn:Hlen; simpl.
  - apply Nat.eqb_eq in Hlen. split; [by apply all_zip_true | done].
  - apply Nat.eqb_neq in Hlen. split; [|done].
    split; [done|]. intros Hall. by apply Forall2_length in Hall.
Qed.

Lemma numpy_aware_eq_tuples_witness :
  _numpy_aware_eq ["past"; "future"] ["past"] = Ok false.
Proof.
  apply (proj2 (numpy_aware_eq_tuples ["past"; "future"] ["past"])).
  simpl. lia.
Defined.

Lemma general_eq_loop_true `{Config} (fields : list field) :
  general_eq_loop fields = Ok true ↔ Forall agrees fields.
Proof.
  induction fields as [|f fields IH]; simpl.
  - split; [constructor | done].
  - rewrite Forall_cons, <- IH. clear IH.
    destruct f as [a b | a b | A eqA a b]; simpl;
      destruct a as [|_a]; simpl; try (split; [done | tauto]);
      destruct b as [|_b]; simpl; try (split; [done | tauto]).
    + destruct (phi_eq _a _b); simpl; [tauto|]. split; [done | by intros [? _]].
    + destruct _a as [s|], _b as [t|]; simpl;
        try (split; [done | by intros [? _]]).
      destruct (bool_decide (set_of s = set_of t)); simpl; [tauto|].
      split; [done | by intros [? _]].
    + destruct (_numpy_aware_eq _a _b) as [[|]|e] eqn:Heq; simpl.
      * unfold _numpy_aware_eq in Heq. rewrite Heq. tauto.
      * unfold _numpy_aware_eq in Heq. rewrite Heq.
        split; [done | by intros [? _]].
      * unfold _numpy_aware_eq in Heq. rewrite Heq.
        split; [done | by intros [? _]].
Qed.

(** X9.  [_general_eq] is true exactly when, for every listed attribute,
    both objects have it and the two values agree: phi values within the
    precision, mechanisms and purviews as tuples over the same set of nodes,
    anything else under [_numpy_aware_eq]; with no attribute listed it is
    true. *)
Theorem general_eq_true `{Config} (fields : list field) :
  (_general_eq fields = Ok true ↔ Forall agrees fields)
  ∧ _general_eq [] = Ok true.
Proof.
  split; [|done].
  rewrite <- general_eq_loop_true. unfold _general_eq.
  by destruct (general_eq_loop fields) as [r|[]].
Qed.

(** ** Mip equality and truth value *)

Lemma Qeq_bool_sym' (x y : Q) : Qeq_bool x y = Qeq_bool y x.
Proof.
  apply eq_true_iff_eq. rewrite !Qeq_bool_iff. split; intros Heq; by symmetry.
Qed.

Lemma data_eq_sym (xs ys : list Q) : data_eq xs ys = data_eq ys xs.
Proof.
  revert ys. induction xs as [|x xs IH]; intros [|y ys]; simpl; try done.
  by rewrite Qeq_bool_sym', IH.
Qed.

Lemma data_eq_refl (xs : list Q) : data_eq xs xs = true.
Proof.
  induction xs as [|x xs IH]; simpl; [done|].
  by rewrite (proj2 (Qeq_bool_iff x x) (Qeq_refl x)), IH.
Qed.

Lemma array_equal_sym (a b : option ndarray) : array_equal a b = array_equal b a.
Proof.
  destruct a as [x|], b as [y|]; simpl; try done.
  rewrite data_eq_sym. f_equal. apply bool_decide_ext. split; congruence.
Qed.

Lemma array_equal_refl (a : option ndarray) : array_equal a a = true.
Proof.
  destruct a as [x|]; simpl; [|done].
  by rewrite data_eq_refl, bool_decide_eq_true_2.
Qed.

Lemma nodes_eq_sym (x y : option (list nat)) : nodes_eq x y = nodes_eq y x.
Proof.
  destruct x as [s|], y as [t|]; simpl; try done.
  apply bool_decide_ext. split; congruence.
Qed.

Lemma purview_len_eq_sym (p q : option (list nat)) :
  purview_len_eq p q = purview_len_eq q p.
Proof.
  destruct p as [[|x p]|], q as [[|y q]|]; simpl; try done.
  apply Nat.eqb_sym.
Qed.

Lemma purview_len_eq_refl (p : option (list nat)) : purview_len_eq p p = true.
Proof. destruct p as [[|x p]|]; simpl; try done. apply Nat.eqb_refl. Qed.

(** X10.  Equality of Mips is symmetric, and, with a non-negative precision,
    a Mip is equal to itself exactly when its mechanism is not [None]. *)
Theorem Mip_eq_symmetric `{Config} (a b : Mip.t) :
  Mip.__eq__ a (Mip.as_obj b) = Mip.__eq__ b (Mip.as_obj a)
  ∧ ((0 <= EPSILON)%Q →
     (Mip.__eq__ a (Mip.as_obj a) = Ok true ↔ Mip.mechanism a ≠ None)).
Proof.
  split.
  - rewrite !Mip_eq_value. unfold mip_core_eq.
    rewrite (phi_eq_sym (Mip.phi a)), (nodes_eq_sym (Mip.mechanism a)),
      (array_equal_sym (Mip.unpartitioned_repertoire a)),
      (purview_len_eq_sym (Mip.purview a)).
    do 2 f_equal. f_equal. f_equal. f_equal.
    apply bool_decide_ext. split; congruence.
  - intros Heps. rewrite Mip_eq_value. unfold mip_core_eq.
    rewrite phi_eq_refl, array_equal_refl, purview_len_eq_refl by done.
    rewrite bool_decide_eq_true_2 by done.
    destruct (Mip.mechanism a) as [s|]; simpl.
    + by rewrite bool_decide_eq_true_2.
    + split; [done | by intros []].
Qed.

Lemma Mip_eq_symmetric_witness :
  let a := unit_mip 0 "past" in
  @Mip.__eq__ default_config a (Mip.as_obj a) = Ok true.
Proof.
  intros a.
  apply (proj2 (@Mip_eq_symmetric default_config a a)); by vm_compute.
Defined.

(** X11.  A Mip is truthy exactly when the absolute value of its phi exceeds
    the precision.  With a non-negative precision the null Mip is falsy, and
    two null Mips of one direction and one mechanism tuple are equal unless
    both purviews are non-empty tuples of different lengths. *)
Theorem null_mip_reducible `{Config} (direction : string)
    (mechanism purview purview' : option (list nat)) :
  (∀ m : Mip.t, Mip.__bool__ m = true ↔ (EPSILON < Qabs (Mip.phi m))%Q)
  ∧ ((0 <= EPSILON)%Q →
     Mip.__bool__ (Mip._null_mip direction mechanism purview) = false
     ∧ ∀ mech, Mip.__eq__ (Mip._null_mip direction (Some mech) purview)
                 (Mip.as_obj (Mip._null_mip direction (Some mech) purview'))
               = Ok (purview_len_eq purview purview')).
Proof.
  split.
  - intros m. unfold Mip.__bool__. rewrite negb_true_iff.
    assert (Qabs (Mip.phi m - 0) == Qabs (Mip.phi m))%Q as Habs.
    { apply Qabs_wd. ring. }
    split.
    + intros Hf. apply Qnot_le_lt. intros Hle. rewrite <- Habs in Hle.
      apply phi_eq_iff in Hle. congruence.
    + intros Hlt. apply not_true_is_false. intros Heq.
      apply phi_eq_iff in Heq. rewrite Habs in Heq.
      by apply (Qlt_not_le _ _ Hlt).
  - intros Heps. split.
    + unfold Mip.__bool__. simpl. by rewrite phi_eq_refl.
    + intros mech. rewrite Mip_eq_value. unfold mip_core_eq. simpl.
      rewrite phi_eq_refl by done.
      by rewrite !bool_decide_eq_true_2.
Qed.

Lemma null_mip_reducible_witness :
  @Mip.__bool__ default_config (Mip._null_mip "past" (Some [0]) (Some [1])) = false.
Proof.
  apply (proj2 (@null_mip_reducible default_config "past" (Some [0]) (Some [1]) None)).
  by vm_compute.
Defined.

(** ** BigMip *)

(** X12.  The BigMip of a single node has empty constellations, the
    subsystem itself as cut subsystem and hence the subsystem's cut; with a
    non-negative precision it is truthy exactly when the configuration gives
    single nodes with self-loops a phi and the precision is below one half,
    and the null BigMip is falsy. *)
Theorem single_node_bigmip_spec `{Config} (flag : bool) (s : Subsystem) :
  BigMip.unpartitioned_constellation (BigMip._single_node_bigmip flag s) = []
  ∧ BigMip.partitioned_constellation (BigMip._single_node_bigmip flag s) = []
  ∧ BigMip.cut_subsystem (BigMip._single_node_bigmip flag s) = s
  ∧ BigMip.cut (BigMip._single_node_bigmip flag s) = cut s
  ∧ ((0 <= EPSILON)%Q →
     (BigMip.__bool__ (BigMip._single_node_bigmip flag s) = true ↔
      flag = true ∧ (EPSILON < 1 # 2)%Q)
     ∧ BigMip.__bool__ (BigMip._null_bigmip s) = false).
Proof.
  split_and!; try by destruct flag.
  intros Heps. split.
  - unfold BigMip.__bool__. rewrite negb_true_iff. destruct flag; simpl.
    + split.
      * intros Hf. split; [done|]. apply Qnot_le_lt. intros Hle.
        assert (phi_eq (1 # 2) 0 = true) as Heq; [|congruence].
        apply phi_eq_iff, Qabs_Qle_condition. split; lra.
      * intros [_ Hlt]. apply not_true_is_false. intros Heq.
        apply phi_eq_iff, Qabs_Qle_condition in Heq. lra.
    + rewrite phi_eq_refl by done. split; [done | by intros [? _]].
  - unfold BigMip.__bool__. simpl. by rewrite phi_eq_refl.
Qed.

Lemma single_node_bigmip_spec_witness :
  @BigMip.__bool__ default_config (BigMip._single_node_bigmip true unit_subsystem)
  = true.
Proof.
  apply (proj1 (proj2 (proj2 (proj2 (proj2
           (@single_node_bigmip_spec default_config true unit_subsystem))))
           ltac:(by vm_compute))).
  split; [done | by vm_compute].
Defined.

(** ** Mice: errors and entries *)

(** X13.  A MICE whose direction is neither 'past' nor 'future' has no
    relevant connections: [_relevant_connections] raises
    [UnboundLocalError].  [damaged_by_cut] still answers [True] when the cut
    splits the mechanism, since the matrix is then never built, and raises
    the same error otherwise.  A mechanism that is [None] is a
    [TypeError]. *)
Theorem damaged_by_cut_errors (m : Mice.t) (s : Subsystem) :
  (Mice.direction m ≠ PAST_DIRECTION → Mice.direction m ≠ FUTURE_DIRECTION →
   Mice._relevant_connections m s = Raise UnboundLocalError
   ∧ ∀ mech, Mice.mechanism m = Some mech →
       Mice.damaged_by_cut m s
       = if set_truthy (Cut.splits_mechanism (cut s) mech)
         then Ok true else Raise UnboundLocalError)
  ∧ (Mice.mechanism m = None → Mice.damaged_by_cut m s = Raise TypeError).
Proof.
  split.
  - intros Hpast Hfuture.
    assert (Mice._relevant_connections m s = Raise UnboundLocalError) as Hrc.
    { unfold Mice._relevant_connections.
      apply String.eqb_neq in Hpast, Hfuture. by rewrite Hpast, Hfuture. }
    split; [done|]. intros mech Hmech.
    unfold Mice.damaged_by_cut. rewrite Hmech, Hrc. simpl.
    by destruct (set_truthy _).
  - intros Hmech. unfold Mice.damaged_by_cut. by rewrite Hmech.
Qed.

Lemma damaged_by_cut_errors_witness :
  let m := Mice.mk (Mip.mk (1 # 2) "present" (Some [0]) (Some [1]) None None None) in
  Mice._relevant_connections m unit_subsystem = Raise UnboundLocalError.
Proof.
  intros m.
  apply (proj1 (damaged_by_cut_errors m unit_subsystem)); discriminate.
Defined.

Lemma relevant_over_ends (direction : string) (mech purv idxs : list nat) :
  relevant_over direction mech purv idxs
  = indicator (relevant_ends direction mech purv).1
              (relevant_ends direction mech purv).2 idxs idxs.
Proof. unfold relevant_over, relevant_ends. by destruct (String.eqb _ _). Qed.

Lemma damaged_by_cut_value (m : Mice.t) (s : Subsystem) (mech purv : list nat) :
  Mice.mechanism m = Some mech →
  Mice.purview m = Some purv →
  Mice.direction m = PAST_DIRECTION ∨ Mice.direction m = FUTURE_DIRECTION →
  Forall (λ i, i < size (network s)) (node_indices s) →
  length (cut_matrix s) = length (node_indices s) →
  Forall (λ row, length row = length (node_indices s)) (cut_matrix s) →
  ∃ d, Mice.damaged_by_cut m s = Ok d
       ∧ (d = true ↔
          set_truthy (Cut.splits_mechanism (cut s) mech) = true
          ∨ ∃ a b i j,
              node_indices s !! a = Some i ∧ node_indices s !! b = Some j
              ∧ i ∈ (relevant_ends (Mice.direction m) mech purv).1
              ∧ j ∈ (relevant_ends (Mice.direction m) mech purv).2
              ∧ cut_matrix s !! a ≫= (.!! b) = Some 1%Z).
Proof.
  intros Hmech Hpurv Hdir Hidx Hlen Hrows.
  unfold Mice.damaged_by_cut. rewrite Hmech. simpl.
  destruct (set_truthy (Cut.splits_mechanism (cut s) mech)) eqn:Hsplit.
  { exists true. split; [done|]. split; [by left | done]. }
  rewrite (_relevant_connections_over m s mech purv) by done. simpl.
  rewrite relevant_over_ends.
  set (ends := relevant_ends (Mice.direction m) mech purv).
  rewrite multiply_same_shape by by apply indicator_shape.
  simpl. eexists. split; [done|].
  rewrite any_eq_1_product. split.
  - intros (a & b & x & y & Hx & Hy & Hxy). right.
    apply indicator_lookup in Hx as (i & j & Hi & Hj & ->).
    exists a, b, i, j.
    destruct (bool_decide (i ∈ ends.1)) eqn:Hf, (bool_decide (j ∈ ends.2)) eqn:Ht;
      simpl in Hxy; try lia.
    apply bool_decide_eq_true in Hf, Ht.
    split_and!; try done. rewrite Hy. f_equal. lia.
  - intros [? | (a & b & i & j & Hi & Hj & Hf & Ht & Hone)]; [done|].
    exists a, b, 1%Z, 1%Z. split_and!; [|done|done].
    apply indicator_lookup. exists i, j. split_and!; try done.
    by rewrite !bool_decide_eq_true_2.
Qed.

(** X14.  For a cause or effect MICE over a subsystem whose nodes lie in the
    network and whose cut matrix has one row and one column per node,
    [damaged_by_cut] returns a truth value, and it is true exactly when the
    cut splits the mechanism or the cut matrix has a 1 at a row whose node is
    on the from-side of the MICE and a column whose node is on its to-side;
    in particular a cut matrix that is zero everywhere leaves every unsplit
    mechanism undamaged. *)
Theorem damaged_by_cut_entries (m : Mice.t) (s : Subsystem) (mech purv : list nat) :
  Mice.mechanism m = Some mech →
  Mice.purview m = Some purv →
  Mice.direction m = PAST_DIRECTION ∨ Mice.direction m = FUTURE_DIRECTION →
  Forall (λ i, i < size (network s)) (node_indices s) →
  length (cut_matrix s) = length (node_indices s) →
  Forall (λ row, length row = length (node_indices s)) (cut_matrix s) →
  (∃ d, Mice.damaged_by_cut m s = Ok d
        ∧ (d = true ↔
           set_truthy (Cut.splits_mechanism (cut s) mech) = true
           ∨ ∃ a b i j,
               node_indices s !! a = Some i ∧ node_indices s !! b = Some j
               ∧ i ∈ (relevant_ends (Mice.direction m) mech purv).1
               ∧ j ∈ (relevant_ends (Mice.direction m) mech purv).2
               ∧ cut_matrix s !! a ≫= (.!! b) = Some 1%Z))
  ∧ (Forall (Forall (λ x, x = 0%Z)) (cut_matrix s) →
     set_truthy (Cut.splits_mechanism (cut s) mech) = false →
     Mice.damaged_by_cut m s = Ok false).
Proof.
  intros Hmech Hpurv Hdir Hidx Hlen Hrows.
  pose proof (damaged_by_cut_value m s mech purv Hmech Hpurv Hdir Hidx Hlen Hrows)
    as (d & Hd & Hiff).
  split; [by exists d|].
  intros Hzero Hsplit. rewrite Hd. f_equal.
  apply not_true_is_false. intros Htrue.
  apply Hiff in Htrue as [? | (a & b & i & j & _ & _ & _ & _ & Hone)]; [congruence|].
  destruct (cut_matrix s !! a) as [row|] eqn:Hrow; [|done]. simpl in Hone.
  rewrite Forall_forall in Hzero.
  assert (Forall (λ x, x = 0%Z) row) as Hrow0.
  { apply Hzero. apply list_elem_of_lookup. eauto. }
  rewrite Forall_forall in Hrow0.
  assert (1%Z = 0%Z); [|done].
  apply Hrow0. apply list_elem_of_lookup. eauto.
Qed.

Lemma damaged_by_cut_entries_witness :
  let m := Mice.mk (Mip.mk (1 # 2) "future" (Some [0]) (Some [1]) None None None) in
  let s := mkSubsystem (mkNetwork 0 3) [0; 0; 0] [0; 1] (mkCut [1] [0])
                       [[0; 0]; [0; 0]]%Z in
  Mice.damaged_by_cut m s = Ok false.
Proof.
  intros m s.
  apply (proj2 (damaged_by_cut_entries m s [0] [1] eq_refl eq_refl
                  (or_intror eq_refl)
                  ltac:(repeat constructor) eq_refl ltac:(repeat constructor))).
  - repeat constructor.
  - by vm_compute.
Defined.

(** X15.  When the subsystem's nodes are the indices of its cut, in the
    order the cut matrix lists them, and its cut matrix is the one
    [Cut.cut_matrix] computes, a cause or effect MICE is damaged exactly when
    the cut splits its mechanism or severs a relevant connection: some node
    on the from-side of the MICE is severed and some node on its to-side is
    intact. *)
Theorem damaged_by_own_cut `{SetOrder} (m : Mice.t) (s : Subsystem) (mech purv : list nat) :
  Mice.mechanism m = Some mech →
  Mice.purview m = Some purv →
  Mice.direction m = PAST_DIRECTION ∨ Mice.direction m = FUTURE_DIRECTION →
  Forall (λ i, i < size (network s)) (node_indices s) →
  node_indices s = set_to_tuple (set_of (severed (cut s) ++ intact (cut s))) →
  Cut.cut_matrix (cut s) = Ok (cut_matrix s) →
  ∃ d, Mice.damaged_by_cut m s = Ok d
       ∧ (d = true ↔
          set_truthy (Cut.splits_mechanism (cut s) mech) = true
          ∨ ∃ i j,
              i ∈ (relevant_ends (Mice.direction m) mech purv).1
              ∧ i ∈ severed (cut s)
              ∧ j ∈ (relevant_ends (Mice.direction m) mech purv).2
              ∧ j ∈ intact (cut s)).
Proof.
  intros Hmech Hpurv Hdir Hidx Hnodes Hcm.
  rewrite cut_matrix_indicator in Hcm. injection Hcm as Hcm.
  rewrite <- Hnodes in Hcm.
  assert (Hin : ∀ i, i ∈ node_indices s ↔ i ∈ severed (cut s) ∨ i ∈ intact (cut s)).
  { intros i. rewrite Hnodes, elem_of_set_to_tuple. unfold set_of.
    by rewrite elem_of_list_to_set, elem_of_app. }
  destruct (damaged_by_cut_value m s mech purv) as (d & Hd & Hiff); try done.
  { rewrite <- Hcm. unfold indicator. by rewrite length_fmap. }
  { rewrite <- Hcm. unfold indicator. apply Forall_fmap, Forall_forall.
    intros i _. simpl. by rewrite length_fmap. }
  exists d. split; [done|]. rewrite Hiff. clear Hiff Hd.
  split; (intros [? | Hex]; [by left | right]).
  - destruct Hex as (a & b & i & j & Hi & Hj & Hf & Ht & Hone).
    rewrite <- Hcm in Hone.
    apply indicator_lookup in Hone as (i' & j' & Hi' & Hj' & Hval).
    rewrite Hi in Hi'. rewrite Hj in Hj'.
    injection Hi' as <-. injection Hj' as <-.
    exists i, j.
    destruct (bool_decide (i ∈ severed (cut s))) eqn:Hs,
             (bool_decide (j ∈ intact (cut s))) eqn:Hn; simpl in Hval; try done.
    apply bool_decide_eq_true in Hs, Hn. done.
  - destruct Hex as (i & j & Hf & Hs & Ht & Hn).
    assert (i ∈ node_indices s) as Hi by (apply Hin; by left).
    assert (j ∈ node_indices s) as Hj by (apply Hin; by right).
    apply list_elem_of_lookup in Hi as [a Ha].
    apply list_elem_of_lookup in Hj as [b Hb].
    exists a, b, i, j. split_and!; try done.
    rewrite <- Hcm. apply indicator_lookup. exists i, j.
    split_and!; try done. by rewrite !bool_decide_eq_true_2.
Qed.

Lemma damaged_by_own_cut_witness :
  let m := Mice.mk (Mip.mk (1 # 2) "past" (Some [0]) (Some [1]) None None None) in
  let s := mkSubsystem (mkNetwork 0 3) [0; 0; 0] [0; 1] (mkCut [1] [0])
                       [[0; 0]; [1; 0]]%Z in
  Mice.damaged_by_cut m s = Ok true.
Proof.
  intros m s.
  destruct (@damaged_by_own_cut ascending_order m s [0] [1] eq_refl eq_refl
              (or_introl eq_refl) ltac:(repeat constructor))
    as (d & Hd & Hiff); [by vm_compute | by vm_compute |].
  rewrite Hd. f_equal. apply Hiff. right. exists 1, 0.
  split_and!; apply list_elem_of_In; simpl; tauto.
Defined.

(** ** Concept equality *)

Lemma Concept_eq_true (a b : Concept.t) :
  Concept.__eq__ a (Concept.as_obj b) = Ok true ↔
  (Concept.phi a == Concept.phi b)%Q
  ∧ Concept.mechanism a = Concept.mechanism b
  ∧ (∃ st, state_of (Concept.mechanism a) (state (Concept.subsystem a)) = Ok st
           ∧ state_of (Concept.mechanism a) (state (Concept.subsystem b)) = Ok st)
  ∧ Concept.purview_or_None (Concept.cause a)
    = Concept.purview_or_None (Concept.cause b)
  ∧ Concept.purview_or_None (Concept.effect a)
    = Concept.purview_or_None (Concept.effect b)
  ∧ array_equal (Concept.repertoire_or_None (Concept.cause a))
                (Concept.repertoire_or_None (Concept.cause b)) = true
  ∧ array_equal (Concept.repertoire_or_None (Concept.effect a))
                (Concept.repertoire_or_None (Concept.effect b)) = true
  ∧ network (Concept.subsystem a) = network (Concept.subsystem b).
Proof.
  unfold Concept.__eq__, Concept.eq_repertoires. simpl.
  rewrite <- Qeq_bool_iff.
  destruct (Qeq_bool (Concept.phi a) (Concept.phi b)); simpl;
    [|split; [done | by intros [? _]]].
  case_bool_decide as Hmech; simpl; [|split; [done | by intros (_ & ? & _)]].
  destruct (state_of (Concept.mechanism a) (state (Concept.subsystem a)))
    as [s1|e1]; simpl;
    [|split; [done | by intros (_ & _ & (? & ? & _) & _)]].
  destruct (state_of (Concept.mechanism a) (state (Concept.subsystem b)))
    as [s2|e2]; simpl;
    [|split; [done | by intros (_ & _ & (? & _ & ?) & _)]].
  case_bool_decide as Hst; simpl;
    [|split; [done | intros (_ & _ & (? & ? & ?) & _); congruence]].
  case_bool_decide as Hcp; simpl; [|split; [done | tauto]].
  case_bool_decide as Hep; simpl; [|split; [done | tauto]].
  destruct (array_equal (Concept.repertoire_or_None (Concept.cause a)) _); simpl;
    [|split; [done | by intros (_ & _ & _ & _ & _ & ? & _)]].
  destruct (array_equal (Concept.repertoire_or_None (Concept.effect a)) _); simpl;
    [|split; [done | by intros (_ & _ & _ & _ & _ & _ & ? & _)]].
  split.
  - intros [= Hnet%bool_decide_eq_true]. subst s2. split_and!; eauto.
  - intros (_ & _ & _ & _ & _ & _ & _ & Hnet). f_equal.
    by apply bool_decide_eq_true.
Qed.

(** X16.  Two concepts are equal exactly when their phi values are equal,
    their mechanisms are the same tuple, the mechanism has the same state in
    both subsystems, the purviews of their causes and of their effects are
    equal, the repertoires of their causes and of their effects are equal as
    arrays, and their subsystems belong to the same network. *)
Theorem Concept_eq_iff (a b : Concept.t) :
  Concept.__eq__ a (Concept.as_obj b) = Ok true ↔
  (Concept.phi a == Concept.phi b)%Q
  ∧ Concept.mechanism a = Concept.mechanism b
  ∧ (∃ st, state_of (Concept.mechanism a) (state (Concept.subsystem a)) = Ok st
           ∧ state_of (Concept.mechanism a) (state (Concept.subsystem b)) = Ok st)
  ∧ Concept.purview_or_None (Concept.cause a)
    = Concept.purview_or_None (Concept.cause b)
  ∧ Concept.purview_or_None (Concept.effect a)
    = Concept.purview_or_None (Concept.effect b)
  ∧ array_equal (Concept.repertoire_or_None (Concept.cause a))
                (Concept.repertoire_or_None (Concept.cause b)) = true
  ∧ array_equal (Concept.repertoire_or_None (Concept.effect a))
                (Concept.repertoire_or_None (Concept.effect b)) = true
  ∧ network (Concept.subsystem a) = network (Concept.subsystem b).
Proof. apply Concept_eq_true. Qed.

(** X17.  Equality of concepts is symmetric, it implies equality for the
    EMD ([emd_eq]), and it looks at a subsystem only through its state and
    its network: the cut, the cut matrix, the node indices and the
    [normalized] flag play no part. *)
Theorem Concept_eq_symmetric (a b : Concept.t) :
  (Concept.__eq__ a (Concept.as_obj b) = Ok true →
   Concept.__eq__ b (Concept.as_obj a) = Ok true
   ∧ Concept.emd_eq a (Concept.as_obj b) = Ok true)
  ∧ (∀ a' b' : Concept.t,
       Concept.phi a' = Concept.phi a → Concept.phi b' = Concept.phi b →
       Concept.mechanism a' = Concept.mechanism a →
       Concept.mechanism b' = Concept.mechanism b →
       Concept.cause a' = Concept.cause a → Concept.cause b' = Concept.cause b →
       Concept.effect a' = Concept.effect a → Concept.effect b' = Concept.effect b →
       state (Concept.subsystem a') = state (Concept.subsystem a) →
       state (Concept.subsystem b') = state (Concept.subsystem b) →
       network (Concept.subsystem a') = network (Concept.subsystem a) →
       network (Concept.subsystem b') = network (Concept.subsystem b) →
       Concept.__eq__ a' (Concept.as_obj b') = Concept.__eq__ a (Concept.as_obj b)).
Proof.
  split.
  - intros Heq.
    apply Concept_eq_true in Heq
      as (Hphi & Hmech & (st & Hsa & Hsb) & Hcp & Hep & Hcr & Her & Hnet).
    split.
    + apply Concept_eq_true. rewrite <- Hmech.
      rewrite (array_equal_sym (Concept.repertoire_or_None (Concept.cause b))),
        (array_equal_sym (Concept.repertoire_or_None (Concept.effect b))).
      split_and!; try done; eauto.
    + unfold Concept.emd_eq, Concept.eq_repertoires. simpl.
      rewrite bool_decide_eq_true_2 by done. simpl.
      by rewrite Hcr, Her.
  - intros a' b' Hpa Hpb Hma Hmb Hca Hcb Hea Heb Hsa Hsb Hna Hnb.
    unfold Concept.__eq__, Concept.eq_repertoires. simpl.
    by rewrite Hpa, Hpb, Hma, Hmb, Hca, Hcb, Hea, Heb, Hsa, Hsb, Hna, Hnb.
Qed.

Lemma Concept_eq_symmetric_witness :
  Concept.emd_eq (unit_concept 0) (Concept.as_obj (unit_concept 0)) = Ok true.
Proof.
  apply (proj1 (Concept_eq_symmetric (unit_concept 0) (unit_concept 0))).
  by vm_compute.
Defined.

(** ** Indentation *)

Lemma append_cons (x : Ascii.ascii) (a b : string) :
  String x a +:+ b = String x (a +:+ b).
Proof. reflexivity. Qed.

Lemma append_nil_l (a : string) : EmptyString +:+ a = a.
Proof. reflexivity. Qed.

Lemma append_assoc (a b c : string) : (a +:+ b) +:+ c = a +:+ (b +:+ c).
Proof.
  induction a as [|x a IH]; [done|]. rewrite !append_cons. by f_equal.
Qed.

Lemma length_append (a b : string) :
  String.length (a +:+ b) = String.length a + String.length b.
Proof.
  induction a as [|x a IH]; [done|]. rewrite append_cons. simpl. by f_equal.
Qed.

Lemma split_lines_cons (s : string) : ∃ l ls, split_lines s = l :: ls.
Proof.
  destruct s as [|c s]; simpl; [by eauto|].
  destruct (Ascii.eqb c LF); [by eauto|].
  destruct (split_lines s); eauto.
Qed.

Lemma split_lines_append (a b : string) :
  split_lines (a +:+ String LF b) = split_lines a ++ split_lines b.
Proof.
  induction a as [|c a IH]; [done|].
  rewrite append_cons. simpl.
  rewrite IH. destruct (Ascii.eqb c LF); [done|].
  by destruct (split_lines_cons a) as (l & ls & ->).
Qed.

Lemma split_lines_single (s : string) :
  LF ∉ String.list_ascii_of_string s → split_lines s = [s].
Proof.
  induction s as [|c s IH]; simpl; [done|].
  rewrite not_elem_of_cons. intros [Hc Hs].
  rewrite (proj2 (Ascii.eqb_neq c LF)) by congruence.
  by rewrite IH.
Qed.

Lemma join_append (sep : string) (xs ys : list string) :
  xs ≠ [] → ys ≠ [] →
  join sep (xs ++ ys) = join sep xs +:+ sep +:+ join sep ys.
Proof.
  intros Hxs Hys. induction xs as [|x [|x' xs] IH]; [done| |].
  - simpl. by destruct ys.
  - change (join sep ((x :: x' :: xs) ++ ys))
      with (x +:+ sep +:+ join sep ((x' :: xs) ++ ys)).
    rewrite IH by done.
    change (join sep (x :: x' :: xs)) with (x +:+ sep +:+ join sep (x' :: xs)).
    by rewrite !append_assoc.
Qed.

Lemma join_split_lines (s : string) :
  join (String LF EmptyString) (split_lines s) = s.
Proof.
  induction s as [|c s IH]; simpl; [done|].
  destruct (Ascii.eqb c LF) eqn:Hc.
  - apply Ascii.eqb_eq in Hc. subst c.
    destruct (split_lines_cons s) as (l & ls & Hs). rewrite Hs in *.
    by rewrite <- IH.
  - destruct (split_lines_cons s) as (l & ls & Hs). rewrite Hs in *.
    rewrite <- IH. by destruct ls.
Qed.

Lemma repeat_str_empty (n : nat) : repeat_str n EmptyString = EmptyString.
Proof. induction n as [|n IH]; simpl; done. Qed.

(** X18.  [indent] puts the padding in front of every line and changes
    nothing else: a string without line feed gets the padding in front, and
    indenting two texts joined by a line feed is indenting each; with amount
    zero, or an empty padding character, [indent] returns its argument. *)
Theorem indent_lines (a b : string) (amount : nat) (chr : string) :
  (LF ∉ String.list_ascii_of_string a → indent a amount chr = repeat_str amount chr +:+ a)
  ∧ indent (a +:+ String LF b) amount chr
    = indent a amount chr +:+ String LF (indent b amount chr)
  ∧ indent a 0 chr = a
  ∧ indent a amount EmptyString = a.
Proof.
  split_and!.
  - intros Hline. unfold indent. by rewrite split_lines_single.
  - unfold indent. rewrite split_lines_append.
    destruct (split_lines_cons a) as (l & ls & Ha).
    destruct (split_lines_cons b) as (l' & ls' & Hb).
    rewrite join_append by (by rewrite ?Ha, ?Hb).
    by rewrite !append_assoc.
  - unfold indent. simpl. apply join_split_lines.
  - unfold indent. rewrite repeat_str_empty. simpl.
    apply join_split_lines.
Qed.

Lemma indent_lines_witness :
  indent "phi: 1" 2 " " = "  phi: 1".
Proof.
  apply (proj1 (indent_lines "phi: 1" "" 2 " ")).
  intros Hin. apply list_elem_of_In in Hin. vm_compute in Hin.
  repeat (destruct Hin as [Hin | Hin]; [discriminate Hin|]). exact Hin.
Defined.

Lemma length_join (sep : string) (xs : list string) :
  String.length (join sep xs) + String.length sep
  = sum_list (String.length <$> xs) + String.length sep * length xs
  ∨ xs = [].
Proof.
  induction xs as [|x [|x' xs] IH]; [by right | left; simpl; lia |].
  left. destruct IH as [IH | ?]; [|done].
  change (join sep (x :: x' :: xs)) with (x +:+ sep +:+ join sep (x' :: xs)).
  rewrite !length_append.
  change (String.length <$> x :: x' :: xs)
    with (String.length x :: (String.length <$> x' :: xs)).
  change (length (x :: x' :: xs)) with (S (length (x' :: xs))).
  change (sum_list (String.length x :: (String.length <$> x' :: xs)))
    with (String.length x + sum_list (String.length <$> x' :: xs)).
  nia.
Qed.

Lemma length_split_lines (s : string) :
  sum_list (String.length <$> split_lines s) + length (split_lines s)
  = S (String.length s).
Proof.
  induction s as [|c s IH]; simpl; [done|].
  destruct (Ascii.eqb c LF); [unfold fmap in *; simpl in *; lia|].
  destruct (split_lines_cons s) as (l & ls & Hs). rewrite Hs in *.
  unfold fmap in *. simpl in *. lia.
Qed.

Lemma length_repeat_str (n : nat) (chr : string) :
  String.length (repeat_str n chr) = n * String.length chr.
Proof.
  induction n as [|n IH]; simpl; [done|]. rewrite length_append. lia.
Qed.

(** X19.  [indent] adds exactly one padding per line: the result is longer
    than the argument by the length of the padding times the number of
    lines of the argument. *)
Theorem indent_length (s : string) (amount : nat) (chr : string) :
  String.length (indent s amount chr)
  = String.length s
    + amount * String.length chr * length (split_lines s).
Proof.
  unfold indent. rewrite length_append, length_repeat_str.
  pose proof (length_split_lines s) as Hs.
  destruct (length_join (String LF (repeat_str amount chr)) (split_lines s))
    as [Hj | Hnil].
  - simpl in Hj. rewrite length_repeat_str in Hj. nia.
  - by destruct (split_lines_cons s) as (l & ls & Hl); rewrite Hl in Hnil.
Qed.

(** ** Equality against ordering *)

Lemma Mip_eq_phi_eq `{Config} (a b : Mip.t) :
  Mip.__eq__ a (Mip.as_obj b) = Ok true →
  phi_eq (Mip.phi a) (Mip.phi b) = true.
Proof.
  rewrite Mip_eq_value. unfold mip_core_eq. intros [= Heq].
  rewrite !andb_true_iff in Heq. tauto.
Qed.

(** X20.  Equal Mips are never strictly apart for [<=] and [>=]: when
    [a == b] and the two can be ordered, both [a <= b] and [a >= b] hold.
    Equality does not exclude [a < b] though, and it is not transitive, as
    soon as the precision is positive. *)
Theorem Mip_eq_against_order `{Config} :
  (∀ (a b : Mip.t) (l : bool),
     Mip.__eq__ a (Mip.as_obj b) = Ok true →
     _Ordering.lt (AMip a) (AMip b) = Ok l →
     _Ordering.__le__ (AMip a) (AMip b) = Ok (Bool true)
     ∧ _Ordering.__ge__ (AMip a) (AMip b) = Ok (Bool true))
  ∧ ((0 < EPSILON)%Q →
     ∃ a b : Mip.t,
       Mip.__eq__ a (Mip.as_obj b) = Ok true
       ∧ _Ordering.lt (AMip a) (AMip b) = Ok true)
  ∧ ((0 < EPSILON)%Q →
     ∃ a b c : Mip.t,
       Mip.__eq__ a (Mip.as_obj b) = Ok true
       ∧ Mip.__eq__ b (Mip.as_obj c) = Ok true
       ∧ Mip.__eq__ a (Mip.as_obj c) = Ok false).
Proof.
  assert (∀ x y : Q, phi_eq x y = true →
    Mip.__eq__ (unit_mip x "past") (Mip.as_obj (unit_mip y "past")) = Ok true)
    as Hunit.
  { intros x y Hxy. rewrite Mip_eq_value. unfold mip_core_eq. simpl.
    rewrite Hxy. by rewrite !bool_decide_eq_true_2. }
  split_and!.
  - intros a b l Heq Hlt. apply Mip_eq_phi_eq in Heq.
    pose proof Hlt as Hlt'.
    apply lt_inv in Hlt' as (Htype & ka & kb & Ha & Hb & _).
    destruct (lt_same_class (AMip b) (AMip a) kb ka eq_refl Hb Ha) as [_ Hgt].
    rewrite (le_value _ _ _ Hlt), (ge_value _ _ _ Hgt). simpl.
    by rewrite Heq, !orb_true_r.
  - intros Heps. exists (unit_mip 0 "past"), (unit_mip EPSILON "past"). split.
    + apply Hunit, phi_eq_iff, Qabs_Qle_condition. split; lra.
    + rewrite unit_mip_lt. f_equal. by apply unit_key_lt.
  - intros Heps.
    exists (unit_mip (2 * EPSILON) "past"), (unit_mip EPSILON "past"),
           (unit_mip 0 "past").
    split_and!.
    + apply Hunit, phi_eq_iff, Qabs_Qle_condition. split; lra.
    + apply Hunit, phi_eq_iff, Qabs_Qle_condition. split; lra.
    + rewrite Mip_eq_value. unfold mip_core_eq. simpl.
      assert (phi_eq (2 * EPSILON) 0 = false) as ->; [|done].
      apply not_true_is_false. intros Hphi.
      apply phi_eq_iff, Qabs_Qle_condition in Hphi. lra.
Qed.

Lemma Mip_eq_against_order_witness :
  let a := unit_mip 0 "past" in
  let b := unit_mip (1 # 2000000) "past" in
  @_Ordering.__le__ default_config (AMip a) (AMip b) = Ok (Bool true)
  ∧ @_Ordering.__ge__ default_config (AMip a) (AMip b) = Ok (Bool true).
Proof.
  intros a b.
  apply (proj1 (@Mip_eq_against_order default_config) a b true); by vm_compute.
Defined.

(** ** Formatting a partition *)

Lemma length_center (s : string) (width : nat) :
  String.length s ≤ width → String.length (center s width) = width.
Proof.
  intros Hle. unfold center.
  rewrite !length_append, !length_repeat_str.
  change (String.length " ") with 1.
  assert ((width - String.length s) / 2 ≤ width - String.length s)
    by (apply Nat.Div0.div_le_upper_bound; lia).
  lia.
Qed.

Lemma one_line_append (a b : string) :
  one_line (a +:+ b) ↔ one_line a ∧ one_line b.
Proof.
  unfold one_line. induction a as [|x a IH].
  - simpl. rewrite elem_of_nil. tauto.
  - rewrite append_cons. simpl. rewrite !not_elem_of_cons, IH. tauto.
Qed.

Lemma one_line_String (x : Ascii.ascii) (s : string) :
  one_line (String x s) ↔ LF ≠ x ∧ one_line s.
Proof. unfold one_line. simpl. by rewrite not_elem_of_cons. Qed.

Lemma one_line_empty : one_line EmptyString.
Proof. unfold one_line. simpl. apply not_elem_of_nil. Qed.

Lemma one_line_repeat_str (n : nat) (chr : string) :
  one_line chr → one_line (repeat_str n chr).
Proof.
  intros Hc. induction n as [|n IH]; simpl; [apply one_line_empty|].
  by apply one_line_append.
Qed.

Lemma one_line_join (sep : string) (pieces : list string) :
  one_line sep → Forall one_line pieces → one_line (join sep pieces).
Proof.
  intros Hsep Hall. induction Hall as [|p ps Hp Hps IH]; [apply one_line_empty|].
  destruct ps as [|p' ps]; [done|].
  change (join sep (p :: p' :: ps)) with (p +:+ sep +:+ join sep (p' :: ps)).
  rewrite !one_line_append. auto.
Qed.

Lemma pretty_N_char_not_LF (d : N) : LF ≠ pretty_N_char d.
Proof. unfold pretty_N_char. repeat case_match; discriminate. Qed.

Lemma one_line_pretty_N_go (x : N) (s : string) :
  one_line s → one_line (pretty_N_go x s).
Proof.
  revert s. induction (N.lt_wf_0 x) as [x _ IH]; intros s Hs.
  destruct (decide (0 < x)%N) as [Hx|Hx].
  - rewrite pretty_N_go_step by done. apply IH.
    + by apply N.div_lt.
    + apply one_line_String. split; [apply pretty_N_char_not_LF | done].
  - assert (x = 0%N) as -> by lia. by rewrite pretty_N_go_0.
Qed.

Lemma one_line_str (n : nat) : one_line (str n).
Proof.
  unfold str, pretty, pretty_nat, pretty, pretty_N.
  case_decide.
  - apply one_line_String. split; [discriminate | apply one_line_empty].
  - apply one_line_pretty_N_go, one_line_empty.
Qed.

Lemma one_line_node_repr (x : list nat) : one_line (node_repr x).
Proof.
  destruct x as [|i x].
  - unfold node_repr. apply one_line_String. split; [discriminate|].
    apply one_line_String. split; [discriminate | apply one_line_empty].
  - unfold node_repr. apply one_line_join.
    + apply one_line_String. split; [discriminate | apply one_line_empty].
    + apply Forall_fmap, Forall_forall. intros n _. apply one_line_str.
Qed.

Lemma one_line_blank : one_line " ".
Proof. apply one_line_String. split; [discriminate | apply one_line_empty]. Qed.

Lemma one_line_center (s : string) (width : nat) :
  one_line s → one_line (center s width).
Proof.
  intros Hs. unfold center. rewrite !one_line_append.
  split_and!; [|done|]; apply one_line_repeat_str, one_line_blank.
Qed.

Lemma center_centred (s : string) (width : nat) :
  String.length s ≤ width → centred_in s width (center s width).
Proof.
  intros Hle. unfold centred_in, center.
  eexists _, _. split; [reflexivity|].
  pose proof (Nat.div_mod_eq (width - String.length s) 2) as Hdiv.
  pose proof (Nat.mod_upper_bound (width - String.length s) 2) as Hmod.
  lia.
Qed.

(** X21.  A formatted partition is empty for no partition, and otherwise
    exactly three lines of one and the same length.  The first holds the
    mechanisms of the two parts and the third their purviews, each written
    as its indices in decimal separated by commas (or [[]] when empty),
    centred in the field of its part and three blanks apart; the second is a
    rule of dashes under each part with [X] between them.  The field of a
    part is as wide as the longer of its mechanism and its purview, and
    distinct indices are written differently. *)
Theorem fmt_partition_aligned (part0 part1 : Part) :
  let width0 := String.length (node_repr (part_mechanism part0))
                `max` String.length (node_repr (part_purview part0)) in
  let width1 := String.length (node_repr (part_mechanism part1))
                `max` String.length (node_repr (part_purview part1)) in
  fmt_partition None = EmptyString
  ∧ (∀ a b : nat, str a = str b → a = b)
  ∧ ∃ numer0 numer1 denom0 denom1,
      let numer := numer0 +:+ "   " +:+ numer1 in
      let div := repeat_str width0 "-" +:+ " X " +:+ repeat_str width1 "-" in
      let denom := denom0 +:+ "   " +:+ denom1 in
      fmt_partition (Some (part0, part1))
      = numer +:+ String LF (div +:+ String LF denom)
      ∧ split_lines (fmt_partition (Some (part0, part1))) = [numer; div; denom]
      ∧ centred_in (node_repr (part_mechanism part0)) width0 numer0
      ∧ centred_in (node_repr (part_mechanism part1)) width1 numer1
      ∧ centred_in (node_repr (part_purview part0)) width0 denom0
      ∧ centred_in (node_repr (part_purview part1)) width1 denom1
      ∧ String.length numer = width0 + 3 + width1
      ∧ String.length div = width0 + 3 + width1
      ∧ String.length denom = width0 + 3 + width1.
Proof.
  intros width0 width1. split; [done|]. split.
  { intros a b Heq. by apply (inj pretty). }
  exists (center (node_repr (part_mechanism part0)) width0),
         (center (node_repr (part_mechanism part1)) width1),
         (center (node_repr (part_purview part0)) width0),
         (center (node_repr (part_purview part1)) width1).
  assert (one_line "   ") as Hgap.
  { repeat (apply one_line_String; split; [discriminate|]). apply one_line_empty. }
  assert (one_line " X ") as Hx.
  { repeat (apply one_line_String; split; [discriminate|]). apply one_line_empty. }
  assert (one_line "-") as Hdash.
  { apply one_line_String. split; [discriminate | apply one_line_empty]. }
  split_and!.
  - reflexivity.
  - assert (∀ a b w w', one_line
        (center (node_repr a) w +:+ "   " +:+ center (node_repr b) w')) as Hline.
    { intros a b w w'. rewrite !one_line_append.
      split_and!; auto using one_line_center, one_line_node_repr. }
    assert (one_line (repeat_str width0 "-" +:+ " X " +:+ repeat_str width1 "-"))
      as Hdiv.
    { rewrite !one_line_append. split_and!; auto using one_line_repeat_str. }
    unfold fmt_partition. fold width0 width1.
    rewrite !split_lines_append.
    by rewrite (split_lines_single _ (Hline _ _ _ _)),
      (split_lines_single _ Hdiv), (split_lines_single _ (Hline _ _ _ _)).
  - apply center_centred. lia.
  - apply center_centred. lia.
  - apply center_centred. lia.
  - apply center_centred. lia.
  - rewrite !length_append, !length_center by lia. simpl. lia.
  - rewrite !length_append, !length_repeat_str. simpl. lia.
  - rewrite !length_append, !length_center by lia. simpl. lia.
Qed.
